(** * tap-exchangeratesapi: the day-by-day sync engine

    A shallow embedding of [src/tap_exchangeratesapi/__init__.py]
    ([parse_response], [giveup], [request], [do_sync] and the choice of the
    start date in [main]) and the properties of its replication loop.

    Conventions of the embedding.
    - Python values are the inductive [value]; a dict is a [gmap key value].
      Dicts that are reachable through one name only (the module-level
      [schema], its snapshot, the state) are kept by value and threaded
      explicitly.  The payload built by [response.json()] lives in an object
      store ([heap]), because [parse_response] mutates one of its objects
      through an alias.
    - Exceptions are the inductive [exn]; a computation that may raise
      returns a [result].
    - The outside world (clock, HTTP server, random generator) is a record of
      oracles, [world]; what the program writes is a list of [event]s. *)

From stdpp Require Import gmap strings list fin_maps numbers countable.
From Stdlib Require Import ZArith QArith Qcanon Ascii String Lia.

Set Warnings "-register-all".

#[local] Open Scope string_scope.
#[local] Open Scope Z_scope.

(** ** Calendar dates and the two [datetime]/[time] formats the code uses *)

Module Calendar.

(** A proleptic Gregorian calendar date, as [datetime.date]. *)
Record date := mkdate { year : Z; month : Z; day : Z }.

#[global] Instance date_eq_dec : EqDecision date.
Proof. solve_decision. Defined.

Definition MINYEAR : Z := 1.
Definition MAXYEAR : Z := 9999.

Definition is_leap (y : Z) : bool :=
  (y mod 4 =? 0) && (negb (y mod 100 =? 0) || (y mod 400 =? 0)).

Definition days_in_month (y m : Z) : Z :=
  if m =? 2 then (if is_leap y then 29 else 28)
  else if (m =? 4) || (m =? 6) || (m =? 9) || (m =? 11) then 30
  else 31.

(** The dates [datetime] accepts: anything else is a [ValueError]. *)
Definition valid_date (d : date) : bool :=
  (MINYEAR <=? year d) && (year d <=? MAXYEAR)
  && (1 <=? month d) && (month d <=? 12)
  && (1 <=? day d) && (day d <=? days_in_month (year d) (month d)).

(** [d + timedelta(days=1)]: the following day; [None] stands for the
    [OverflowError] raised past 9999-12-31. *)
Definition add_day (d : date) : option date :=
  if day d <? days_in_month (year d) (month d)
  then Some (mkdate (year d) (month d) (day d + 1))
  else if month d <? 12 then Some (mkdate (year d) (month d + 1) 1)
  else if year d <? MAXYEAR then Some (mkdate (year d + 1) 1 1)
  else None.

(** Chronological order on dates (lexicographic on year, month, day). *)
Definition date_ltb (a b : date) : bool :=
  (year a <? year b)
  || ((year a =? year b)
      && ((month a <? month b)
          || ((month a =? month b) && (day a <? day b)))).

Definition date_leb (a b : date) : bool := date_ltb a b || bool_decide (a = b).

(** A naive [datetime]: a date and the microseconds elapsed since its
    midnight. *)
Record datetime := mkdatetime { dt_date : date; dt_micros : Z }.

#[global] Instance datetime_eq_dec : EqDecision datetime.
Proof. solve_decision. Defined.

Definition midnight (d : date) : datetime := mkdatetime d 0.

(** [a <= b] on naive datetimes. *)
Definition datetime_leb (a b : datetime) : bool :=
  date_ltb (dt_date a) (dt_date b)
  || (bool_decide (dt_date a = dt_date b) && (dt_micros a <=? dt_micros b)).

(** *** Parsing and printing with [DATE_FORMAT = "%Y-%m-%d"] *)

Definition digit_of (c : ascii) : option Z :=
  let n := Z.of_N (N_of_ascii c) in
  if (48 <=? n) && (n <=? 57) then Some (n - 48) else None.

Definition ascii_of_digit (n : Z) : ascii := ascii_of_N (Z.to_N (n + 48)).

Definition dash : ascii := "-"%char.
Definition space : ascii := " "%char.

(** [%Y]: exactly four digits. *)
Definition parse_Y (s : list ascii) : option (Z * list ascii) :=
  match s with
  | a :: b :: c :: d :: rest =>
      a ← digit_of a; b ← digit_of b; c ← digit_of c; d ← digit_of d;
      Some (1000 * a + 100 * b + 10 * c + d, rest)
  | _ => None
  end.

(** [%m] followed by the literal dash: [1[0-2]|0[1-9]|[1-9]]. *)
Definition parse_m (s : list ascii) : option (Z * list ascii) :=
  match s with
  | a :: b :: rest =>
      if bool_decide (b = dash)
      then a ← digit_of a; if 1 <=? a then Some (a, rest) else None
      else match rest with
           | c :: rest' =>
               if bool_decide (c = dash)
               then a ← digit_of a; b ← digit_of b;
                    let m := 10 * a + b in
                    if (1 <=? m) && (m <=? 12) then Some (m, rest') else None
               else None
           | [] => None
           end
  | _ => None
  end.

(** [%d] up to the end of the text:
    [3[0-1]|[1-2]\d|0[1-9]|[1-9]| [1-9]]; text left over is an error. *)
Definition parse_d (s : list ascii) : option Z :=
  match s with
  | [a] => a ← digit_of a; if 1 <=? a then Some a else None
  | [a; b] =>
      if bool_decide (a = space)
      then b ← digit_of b; if 1 <=? b then Some b else None
      else a ← digit_of a; b ← digit_of b;
           let d := 10 * a + b in
           if (1 <=? d) && (d <=? 31) then Some d else None
  | _ => None
  end.

(** [datetime.strptime(s, DATE_FORMAT)] and [time.strptime(s, DATE_FORMAT)]
    share this parser; [None] is the [ValueError] of a text that does not
    match or names no calendar day.  Only ASCII digits are recognised. *)
Definition strptime (s : string) : option date :=
  match parse_Y (list_ascii_of_string s) with
  | Some (y, r1) =>
      match r1 with
      | c :: r1' =>
          if bool_decide (c = dash) then
            match parse_m r1' with
            | Some (m, r2) =>
                match parse_d r2 with
                | Some d =>
                    let dt := mkdate y m d in
                    if valid_date dt then Some dt else None
                | None => None
                end
            | None => None
            end
          else None
      | [] => None
      end
  | None => None
  end.

Definition two_digits (n : Z) : list ascii :=
  [ascii_of_digit (n / 10 mod 10); ascii_of_digit (n mod 10)].

Definition four_digits (n : Z) : list ascii :=
  [ascii_of_digit (n / 1000 mod 10); ascii_of_digit (n / 100 mod 10);
   ascii_of_digit (n / 10 mod 10); ascii_of_digit (n mod 10)].

(** [d.strftime(DATE_FORMAT)], zero padded as the Python documentation
    gives it ([%Y] as 0001 ... 9999). *)
Definition strftime (d : date) : string :=
  string_of_list_ascii
    (four_digits (year d) ++ dash :: two_digits (month d)
       ++ dash :: two_digits (day d)).

(** [time.strftime("%Y-%m-%dT%H:%M:%SZ", t)] for the [struct_time] that
    [time.strptime(_, DATE_FORMAT)] returns, whose clock fields are all 0. *)
Definition strftime_iso (d : date) : string :=
  strftime d ++ "T00:00:00Z".

End Calendar.
Export Calendar.


(** ** Python values, the object store and exceptions *)

Module Py.

(** What can be a dict key.  [True]/[False] hash and compare as 1/0, so they
    are numeric keys. *)
Inductive key :=
  | KStr (s : string)
  | KNum (q : Qc)
  | KNone.

#[global] Instance key_eq_dec : EqDecision key.
Proof. solve_decision. Defined.

#[global] Instance key_countable : Countable key.
Proof.
  refine (inj_countable'
    (λ k, match k with
          | KStr s => inl s | KNum q => inr (inl q) | KNone => inr (inr ())
          end)
    (λ x, match x with
          | inl s => KStr s | inr (inl q) => KNum q | inr (inr _) => KNone
          end) _).
  by intros [].
Defined.

Coercion KStr : string >-> key.

(** Addresses of dict objects in the store. *)
Definition loc := positive.

(** A Python value.  [VDict] is a dict held by value (nobody else holds a
    reference to it); [VRef] is a reference to a dict object of the store.
    Lists are never updated by the program and are held by value.  Numbers
    are the rationals that finite ints and floats denote. *)
Inductive value :=
  | VNone
  | VBool (b : bool)
  | VNum (q : Qc)
  | VStr (s : string)
  | VList (l : list value)
  | VDict (d : gmap key value)
  | VRef (l : loc).

(** [==] on values: structural equality, as Python's [==] on str, list and
    dict (a dict compares by its entries, whatever their order). *)
#[global] Instance value_eq_dec : EqDecision value.
Proof.
  refine (fix go (v1 v2 : value) {struct v1} : Decision (v1 = v2) :=
    let _ : EqDecision value := @go in
    match v1, v2 with
    | VNone, VNone => left _
    | VBool a, VBool b => cast_if (decide (a = b))
    | VNum a, VNum b => cast_if (decide (a = b))
    | VStr a, VStr b => cast_if (decide (a = b))
    | VList a, VList b => cast_if (decide (a = b))
    | VDict a, VDict b => cast_if (decide (a = b))
    | VRef a, VRef b => cast_if (decide (a = b))
    | _, _ => right _
    end); abstract congruence.
Defined.

Abbreviation dict := (gmap key value).
Abbreviation heap := (gmap loc (gmap key value)).

(** A decoded JSON document, before [response.json()] builds objects for it.
    An object lists its members in document order. *)
Inductive json :=
  | JNull
  | JBool (b : bool)
  | JNum (q : Qc)
  | JStr (s : string)
  | JArr (items : list json)
  | JObj (members : list (string * json)).

#[global] Instance json_eq_dec : EqDecision json.
Proof.
  refine (fix go (j1 j2 : json) {struct j1} : Decision (j1 = j2) :=
    let _ : EqDecision json := @go in
    match j1, j2 with
    | JNull, JNull => left _
    | JBool a, JBool b => cast_if (decide (a = b))
    | JNum a, JNum b => cast_if (decide (a = b))
    | JStr a, JStr b => cast_if (decide (a = b))
    | JArr a, JArr b => cast_if (decide (a = b))
    | JObj a, JObj b => cast_if (decide (a = b))
    | _, _ => right _
    end); abstract congruence.
Defined.

(** An HTTP response, as far as the program looks at it. *)
Record response := mkresponse {
  status_code : Z;
  text : string;
  body : option json   (* what [response.json()] decodes; [None]: not JSON *)
}.

#[global] Instance response_eq_dec : EqDecision response.
Proof. solve_decision. Defined.

(** A [requests.exceptions.RequestException]: [rx_response] is its
    [response] attribute, [None] for connection errors and timeouts. *)
Record request_exception := mkrx {
  rx_url : string;
  rx_response : option response
}.

#[global] Instance request_exception_eq_dec : EqDecision request_exception.
Proof. solve_decision. Defined.

(** The exception classes that occur. *)
Inductive exn :=
  | KeyError (k : key)
  | RequestException (e : request_exception)
  | AttributeError
  | TypeError
  | ValueError
  | OverflowError.

#[global] Instance exn_eq_dec : EqDecision exn.
Proof. solve_decision. Defined.

Inductive result (A : Type) :=
  | Ok (a : A)
  | Raise (e : exn).
Arguments Ok {A} a.
Arguments Raise {A} e.

#[global] Instance result_eq_dec `{EqDecision A} : EqDecision (result A).
Proof. solve_decision. Defined.

(** [hash(v)] as far as dicts need it: the key [v] stands for, or a
    [TypeError] for the unhashable list and dict. *)
Definition to_key (v : value) : result key :=
  match v with
  | VNone => Ok KNone
  | VBool b => Ok (KNum (if b then 1%Qc else 0%Qc))
  | VNum q => Ok (KNum q)
  | VStr s => Ok (KStr s)
  | VList _ | VDict _ | VRef _ => Raise TypeError
  end.

Definition of_key (k : key) : value :=
  match k with
  | KStr s => VStr s
  | KNum q => VNum q
  | KNone => VNone
  end.

(** The characters of a string, each a string of length one. *)
Fixpoint chars (s : string) : list value :=
  match s with
  | EmptyString => []
  | String c r => VStr (String c EmptyString) :: chars r
  end.

End Py.
Export Py.

(** ** The process: its environment, its state and its output *)

Module Proc.

(** One call of [requests.get]: either a response arrives, or the call
    raises a [RequestException] that carries no response (connection error,
    timeout). *)
Inductive attempt :=
  | Responds (r : response)
  | NoResponse.

(** The environment of a run.  [utcnow n] is the [n]-th reading of the UTC
    clock, [http_get n url] what the [n]-th HTTP request of the run, sent to
    [url], meets, and [random n] the [n]-th draw of [random.random()]. *)
Record world := mkworld {
  utcnow : nat → datetime;
  http_get : nat → string → attempt;
  random : nat → Qc
}.

(** What the process does that can be seen from outside: HTTP requests,
    pauses, and the three kinds of Singer messages written to the output
    stream.  Logging is left out. *)
Inductive event :=
  | HttpGet (url : string) (headers : list (string * string))
  | Sleep (seconds : Qc)
  | MsgSchema (stream : string) (schema : value) (key_properties : string)
  | MsgRecord (stream : string) (record : value)
  | MsgState (state : value).

#[global] Instance event_eq_dec : EqDecision event.
Proof. solve_decision. Defined.

(** The state of the process besides the local variables of [do_sync]:
    the object store, the entries of the module-level dict
    [schema["properties"]] (the only part of [schema] the program updates),
    what was written so far, and how often each oracle was consulted. *)
Record proc := mkproc {
  store : heap;
  properties : gmap key value;
  output : list event;
  clock_reads : nat;
  requests_sent : nat;
  draws : nat
}.

#[global] Instance proc_eq_dec : EqDecision proc.
Proof. solve_decision. Defined.

(** Computations of the process: they update the process state and either
    return or raise. *)
Definition M (A : Type) : Type := proc → result A * proc.

#[global] Instance M_ret : MRet M := λ A a σ, (Ok a, σ).

#[global] Instance M_bind : MBind M := λ A B f m σ,
  match m σ with
  | (Ok a, σ') => f a σ'
  | (Raise e, σ') => (Raise e, σ')
  end.

Definition raise {A} (e : exn) : M A := λ σ, (Raise e, σ).

Definition lift {A} (r : result A) : M A := λ σ, (r, σ).

Definition or_raise {A} (e : exn) (o : option A) : M A :=
  match o with Some a => mret a | None => raise e end.

(** Updates of single components of the process state. *)
Definition set_store (h : heap) (σ : proc) : proc :=
  mkproc h (properties σ) (output σ)
    (clock_reads σ) (requests_sent σ) (draws σ).

Definition set_properties (p : gmap key value) (σ : proc) : proc :=
  mkproc (store σ) p (output σ)
    (clock_reads σ) (requests_sent σ) (draws σ).

Definition write (ev : event) (σ : proc) : proc :=
  mkproc (store σ) (properties σ) (output σ ++ [ev])
    (clock_reads σ) (requests_sent σ) (draws σ).

Definition count_clock_read (σ : proc) : proc :=
  mkproc (store σ) (properties σ) (output σ)
    (S (clock_reads σ)) (requests_sent σ) (draws σ).

Definition count_request (σ : proc) : proc :=
  mkproc (store σ) (properties σ) (output σ)
    (clock_reads σ) (S (requests_sent σ)) (draws σ).

Definition count_draw (σ : proc) : proc :=
  mkproc (store σ) (properties σ) (output σ)
    (clock_reads σ) (requests_sent σ) (S (draws σ)).

Definition emit (ev : event) : M () := λ σ, (Ok (), write ev σ).

Definition get_store : M heap := λ σ, (Ok (store σ), σ).

Definition put_store (h : heap) : M () := λ σ, (Ok (), set_store h σ).

Definition get_properties : M (gmap key value) := λ σ, (Ok (properties σ), σ).

Definition put_properties (p : gmap key value) : M () := λ σ,
  (Ok (), set_properties p σ).

(** The elements of a JSON array and the members of a JSON object, each
    built by [ld]. *)
Section Load.

Variable ld : json → M value.

Fixpoint load_items (js : list json) : M (list value) :=
  match js with
  | [] => mret []
  | x :: r => v ← ld x; vs ← load_items r; mret (v :: vs)
  end.

Fixpoint load_members (ms : list (string * json)) (d : gmap key value)
  : M (gmap key value) :=
  match ms with
  | [] => mret d
  | (k, x) :: r => v ← ld x; load_members r (<[KStr k := v]> d)
  end.

End Load.

(** [for x in xs: body(x)] *)
Fixpoint for_each {A} (xs : list A) (body : A → M ()) : M () :=
  match xs with
  | [] => mret ()
  | x :: r => body x;; for_each r body
  end.

End Proc.
Export Proc.

(** ** The program *)

Module Tap.

Section WithWorld.

Variable w : world.

(** *** Primitive operations of the interpreter and of the libraries *)

(** A fresh dict object holding [d]. *)
Definition alloc (d : gmap key value) : M value := λ σ,
  let l := fresh (dom (store σ)) in
  (Ok (VRef l), set_store (<[l := d]> (store σ)) σ).

(** The entries of the dict that [v] is, if it is one. *)
Definition dict_of (h : heap) (v : value) : option (gmap key value) :=
  match v with
  | VDict d => Some d
  | VRef l => h !! l
  | _ => None
  end.

(** [v[k]]: a [KeyError] when the dict [v] has no key [k], a [TypeError]
    when [v] is no dict (lists and strings take no string index, the other
    values no index at all). *)
Definition subscript (v : value) (k : string) : M value :=
  h ← get_store;
  match dict_of h v with
  | Some d => or_raise (KeyError (KStr k)) (d !! KStr k)
  | None => raise TypeError
  end.

(** [target[k] = v] on a dict object of the store.  On anything else the
    statement, or at the latest the next one of [parse_response], raises
    ([TypeError], or [IndexError] on a list); both go to the same handler
    and are not told apart. *)
Definition store_item (target k v : value) : M () :=
  h ← get_store;
  match target with
  | VRef l =>
      match h !! l with
      | Some d => kk ← lift (to_key k); put_store (<[l := <[kk := v]> d]> h)
      | None => raise TypeError
      end
  | _ => raise TypeError
  end.

(** The items that [for x in v] goes through: the keys of a dict (in the
    order of the map, which no property below depends on), the elements of a
    list, the characters of a string; other values are not iterable. *)
Definition iterate (v : value) : M (list value) :=
  h ← get_store;
  match v with
  | VList l => mret l
  | VStr s => mret (chars s)
  | _ =>
      match dict_of h v with
      | Some d => mret (of_key <$> (map_to_list d).*1)
      | None => raise TypeError
      end
  end.

(** Building the objects of a decoded document: members first, then the
    dict that holds them; of a repeated member name the last one stays. *)
Fixpoint load (j : json) : M value :=
  match j with
  | JNull => mret VNone
  | JBool b => mret (VBool b)
  | JNum q => mret (VNum q)
  | JStr s => mret (VStr s)
  | JArr items => vs ← load_items load items; mret (VList vs)
  | JObj members => d ← load_members load members ∅; alloc d
  end.

(** [response.json()] *)
Definition response_json (r : response) : M value :=
  j ← or_raise ValueError (body r);
  load j.

(** [time.strptime(v, DATE_FORMAT)] *)
Definition time_strptime (v : value) : M date :=
  match v with
  | VStr s => or_raise ValueError (strptime s)
  | _ => raise TypeError
  end.

(** [datetime.utcnow()] *)
Definition datetime_utcnow : M datetime := λ σ,
  (Ok (utcnow w (clock_reads σ)), count_clock_read σ).

(** [random.random()] *)
Definition random_random : M Qc := λ σ,
  (Ok (random w (draws σ)), count_draw σ).

(** [requests.get(url=url, params=None, headers=headers)] *)
Definition requests_get (url : string) (headers : list (string * string))
  : M response := λ σ,
  let σ' := write (HttpGet url headers) (count_request σ) in
  match http_get w (requests_sent σ) url with
  | Responds r => (Ok r, σ')
  | NoResponse => (Raise (RequestException (mkrx url None)), σ')
  end.

(** [response.raise_for_status()]: an [HTTPError] for 4xx and 5xx. *)
Definition raise_for_status (url : string) (r : response) : M () :=
  if (400 <=? status_code r) && (status_code r <? 600)
  then raise (RequestException (mkrx url (Some r)))
  else mret ().

(** *** [parse_response] (lines 21-28) *)

Definition parse_response (r : value) : M value :=
  flattened ← subscript r "rates";
  base ← subscript r "base";
  store_item flattened base (VNum 1);;
  base ← subscript r "base";
  store_item flattened (VStr "base") base;;
  date ← subscript r "date";
  t ← time_strptime date;
  store_item flattened (VStr "date") (VStr (strftime_iso t));;
  mret flattened.

(** *** The module-level [schema] (lines 31-37) *)

Definition initial_properties : gmap key value :=
  {[ KStr "date" :=
       VDict {[ KStr "type" := VStr "string";
                KStr "format" := VStr "date-time" ]};
     KStr "base" := VDict {[ KStr "type" := VStr "string" ]} ]}.

(** The value of [schema] when [schema["properties"]] holds [props]. *)
Definition schema_of (props : gmap key value) : value :=
  VDict {[ KStr "type" := VStr "object"; KStr "properties" := VDict props ]}.

Definition schema : M value := props ← get_properties; mret (schema_of props).

(** *** [giveup] and [request] (lines 40-57) *)

(** [error.response.text] is read first: without a response this is an
    attribute access on [None]. *)
Definition giveup (error : request_exception) : M bool :=
  match rx_response error with
  | None => raise AttributeError
  | Some response =>
      mret (negb ((status_code response =? 429)
                  || (500 <=? status_code response)))
  end.

Definition max_tries : nat := 5.
Definition interval : Qc := Q2Qc (inject_Z 30).

(** [backoff.random_jitter] *)
Definition random_jitter (value : Qc) : M Qc :=
  r ← random_random; mret (value + r)%Qc.

(** The retry loop of [backoff.on_exception] around [target], for the
    exception class [RequestException]; [remaining] is [max_tries] minus the
    number of tries made, the current one included.  Other exceptions, and
    one raised by [giveup] itself, pass through. *)
Fixpoint on_exception {A} (remaining : nat) (target : M A) : M A := λ σ,
  match target σ with
  | (Raise (RequestException e), σ') =>
      (g ← giveup e;
       match g, remaining with
       | false, S remaining' =>
           seconds ← random_jitter interval;
           emit (Sleep seconds);;
           on_exception remaining' target
       | _, _ => raise (RequestException e)
       end) σ'
  | r => r
  end.

(** Lines 55-57, the function under the decorator. *)
Definition request_once (url : string) (headers : list (string * string))
  : M response :=
  response ← requests_get url headers;
  raise_for_status url response;;
  mret response.

(** Lines 46-57, the decorated function. *)
Definition request (url : string) (headers : list (string * string))
  : M response :=
  on_exception (max_tries - 1) (request_once url headers).

(** *** [do_sync] (lines 60-111) *)

Definition base_url : string := "http://api.apilayer.com/exchangerates_data/".

(** The local variables of [do_sync] that live across iterations. *)
Record locals := mklocals {
  state : value;
  next_date : string;
  prev_schema : value
}.

#[global] Instance locals_eq_dec : EqDecision locals.
Proof. solve_decision. Defined.

Definition nullable_number : value :=
  VDict {[ KStr "type" := VList [VStr "null"; VStr "number"] ]}.

(** Lines 75-76, the body of the [for] loop. *)
Definition add_rate (rate : value) : M () :=
  k ← lift (to_key rate);
  props ← get_properties;
  if bool_decide (k ∉ dom props)
  then put_properties (<[k := nullable_number]> props)
  else mret ().

(** Line 66, the test of the [while] loop. *)
Definition loop_test (l : locals) : M bool :=
  d ← or_raise ValueError (strptime (next_date l));
  now ← datetime_utcnow;
  mret (datetime_leb (midnight d) now).

(** Lines 74-76: update schema if new currencies exist. *)
Definition update_schema (payload : value) : M () :=
  rates ← subscript payload "rates";
  items ← iterate rates;
  for_each items add_rate.

(** Lines 79-80: only write schema if it has changed. *)
Definition write_schema_if_changed (l : locals) : M () :=
  sch ← schema;
  if bool_decide (sch ≠ prev_schema l)
  then emit (MsgSchema "exchange_rate" sch "date")
  else mret ().

(** Lines 82-83.  The record is written out at once, so the message holds
    the entries the dict has at that moment. *)
Definition write_record_if_date_matches (l : locals) (payload : value)
  : M () :=
  date ← subscript payload "date";
  if bool_decide (date = VStr (next_date l))
  then record ← parse_response payload;
       h ← get_store;
       emit (MsgRecord "exchange_rate"
               (match dict_of h record with
                | Some d => VDict d
                | None => record
                end))
  else mret ().

(** Lines 85-89. *)
Definition advance (l : locals) : M locals :=
  let state' := VDict {[ KStr "start_date" := VStr (next_date l) ]} in
  d ← or_raise ValueError (strptime (next_date l));
  d' ← or_raise OverflowError (add_day d);
  sch ← schema;
  mret (mklocals state' (strftime d') sch).

(** Lines 74-89: what one iteration does with the payload it received. *)
Definition process (l : locals) (payload : value) : M locals :=
  update_schema payload;;
  write_schema_if_changed l;;
  write_record_if_date_matches l payload;;
  advance l.

(** Lines 67-89, the body of the [while] loop. *)
Definition iteration (access_key : string) (l : locals) : M locals :=
  response ← request (base_url ++ next_date l) [("apikey", access_key)];
  payload ← response_json response;
  process l payload.

(** The [while] loop; [None] when [fuel] iterations were not enough. *)
Fixpoint while (fuel : nat) (access_key : string) (l : locals) (σ : proc)
  : option (result locals * proc) :=
  match fuel with
  | O => None
  | S fuel' =>
      match loop_test l σ with
      | (Ok true, σ1) =>
          match iteration access_key l σ1 with
          | (Ok l', σ2) => while fuel' access_key l' σ2
          | (Raise e, σ2) => Some (Raise e, σ2)
          end
      | (Ok false, σ1) => Some (Ok l, σ1)
      | (Raise e, σ1) => Some (Raise e, σ1)
      end
  end.

(** How the process ends: [do_sync] returns (and [main] after it, exit
    status 0), or it calls [sys.exit], or an exception leaves it. *)
Inductive outcome :=
  | Returned
  | SysExit (code : Z)
  | Uncaught (e : exn).

#[global] Instance outcome_eq_dec : EqDecision outcome.
Proof. solve_decision. Defined.

Definition exit_status (o : outcome) : Z :=
  match o with
  | Returned => 0
  | SysExit code => code mod 256
  | Uncaught _ => 1
  end.

(** Lines 91-108, the three [except] clauses.  The second one reads
    [e.response.status_code], which fails without a response. *)
Definition handler (e : exn) : outcome :=
  match e with
  | KeyError _ => SysExit (-1)
  | RequestException rx =>
      match rx_response rx with
      | Some _ => SysExit (-1)
      | None => Uncaught AttributeError
      end
  | _ => SysExit (-1)
  end.

(** Lines 61-63. *)
Definition initial_locals (start_date : string) : locals :=
  mklocals (VDict {[ KStr "start_date" := VStr start_date ]})
    start_date (VDict ∅).

Definition do_sync (fuel : nat) (start_date access_key : string) (σ : proc)
  : option (outcome * proc) :=
  match while fuel access_key (initial_locals start_date) σ with
  | Some (Ok l, σ') =>
      let '(_, σ'') := emit (MsgState (state l)) σ' in
      Some (Returned, σ'')
  | Some (Raise e, σ') => Some (handler e, σ')
  | None => None
  end.

(** The process as [main] starts it, after the module has been loaded. *)
Definition start : proc := mkproc ∅ initial_properties [] 0 0 0.

(** The local variables and the process state when the test of the [while]
    loop is evaluated for the [n+1]-th time, that is after [n] complete
    iterations; [None] when the loop has ended before. *)
Fixpoint loop_head (n : nat) (start_date access_key : string) (σ : proc)
  : option (locals * proc) :=
  match n with
  | O => Some (initial_locals start_date, σ)
  | S n' =>
      match loop_head n' start_date access_key σ with
      | Some (l, σ0) =>
          match loop_test l σ0 with
          | (Ok true, σ1) =>
              match iteration access_key l σ1 with
              | (Ok l', σ2) => Some (l', σ2)
              | _ => None
              end
          | _ => None
          end
      | None => None
      end
  end.

End WithWorld.

(** What was written between the process states [σ] and [σ']. *)
Definition emitted (σ σ' : proc) : list event :=
  drop (List.length (output σ)) (output σ').

End Tap.
Export Tap.

(** ** Vocabulary of the properties *)

Module Spec.

(** The member of a JSON object that decoding keeps under name [k]: the
    last one. *)
Fixpoint member (k : string) (ms : list (string * json)) : option json :=
  match ms with
  | [] => None
  | (k', x) :: r =>
      match member k r with
      | Some y => Some y
      | None => if bool_decide (k' = k) then Some x else None
      end
  end.

(** Induction on documents that reaches the items of arrays and the members
    of objects. *)
Section json_induction.

Variable P : json → Prop.
Hypothesis Hnull : P JNull.
Hypothesis Hbool : ∀ b, P (JBool b).
Hypothesis Hnum : ∀ q, P (JNum q).
Hypothesis Hstr : ∀ s, P (JStr s).
Hypothesis Harr : ∀ items, Forall P items → P (JArr items).
Hypothesis Hobj : ∀ members, Forall (λ kx, P kx.2) members → P (JObj members).

Fixpoint json_nested_ind (j : json) : P j :=
  match j with
  | JNull => Hnull
  | JBool b => Hbool b
  | JNum q => Hnum q
  | JStr s => Hstr s
  | JArr items =>
      Harr items
        ((fix go (js : list json) : Forall P js :=
            match js with
            | [] => Forall_nil P
            | x :: r => Forall_cons P x r (json_nested_ind x) (go r)
            end) items)
  | JObj members =>
      Hobj members
        ((fix go (ms : list (string * json)) : Forall (λ kx, P kx.2) ms :=
            match ms with
            | [] => Forall_nil _
            | kx :: r => Forall_cons _ kx r (json_nested_ind kx.2) (go r)
            end) members)
  end.

End json_induction.

(** What the value built for a document looks like, one level deep. *)
Definition shallow (h : heap) (j : json) (v : value) : Prop :=
  match j with
  | JNull => v = VNone
  | JBool b => v = VBool b
  | JNum q => v = VNum q
  | JStr s => v = VStr s
  | JArr _ => ∃ vs, v = VList vs
  | JObj ms =>
      ∃ l d, v = VRef l ∧ h !! l = Some d
             ∧ ∀ k : key, is_Some (d !! k)
                          ↔ ∃ s, k = KStr s ∧ is_Some (member s ms)
  end.

(** [m] relates the process state it starts from to the one it leaves, be it
    by returning or by raising. *)
Definition respects (R : relation proc) {A} (m : M A) : Prop :=
  ∀ σ r σ', m σ = (r, σ') → R σ σ'.

(** [m] always returns. *)
Definition returns {A} (m : M A) : Prop := ∀ σ, ∃ a σ', m σ = (Ok a, σ').

(** What is written is made of events in [P]. *)
Definition writes (P : event → Prop) : relation proc := λ σ σ',
  ∃ evs, output σ' = (output σ ++ evs)%list ∧ Forall P evs.

(** [schema["properties"]] is left as it is. *)
Definition keeps : relation proc := λ σ σ', properties σ' = properties σ.

(** [schema["properties"]] keeps its entries. *)
Definition grows : relation proc := λ σ σ', properties σ ⊆ properties σ'.

(** Only the store changes, and only by new objects. *)
Definition allocates : relation proc := λ σ σ',
  store σ ⊆ store σ' ∧ properties σ' = properties σ ∧ output σ' = output σ
  ∧ clock_reads σ' = clock_reads σ ∧ requests_sent σ' = requests_sent σ
  ∧ draws σ' = draws σ.

(** The statuses for which [giveup] answers no. *)
Definition transient (status : Z) : Prop := status = 429 ∨ 500 ≤ status.

(** The exceptions of [m] are all in [E]. *)
Definition raises (E : exn → Prop) {A} (m : M A) : Prop :=
  ∀ σ e σ', m σ = (Raise e, σ') → E e.

(** The exceptions other than a [RequestException]: the first and the last
    [except] clause turn them into [sys.exit(-1)]. *)
Definition key_or_plain (e : exn) : Prop :=
  match e with RequestException _ => False | _ => True end.

(** Neither the store nor the output changes. *)
Definition quiet : relation proc := λ σ σ',
  store σ' = store σ ∧ output σ' = output σ.

(** Kinds of events. *)
Definition is_request (e : event) : Prop :=
  match e with HttpGet _ _ | Sleep _ => True | _ => False end.

Definition is_schema (e : event) : Prop :=
  match e with MsgSchema _ _ _ => True | _ => False end.

Definition is_record (e : event) : Prop :=
  match e with MsgRecord _ _ => True | _ => False end.

Definition is_state (e : event) : Prop :=
  match e with MsgState _ => True | _ => False end.

Definition nothing (e : event) : Prop := False.

(** The entries of [schema["properties"]] after the [for] loop of lines
    74-76 went through the keys [ks]. *)
Definition add_fields (ks : list key) (props : gmap key value)
  : gmap key value :=
  foldl (λ p k, if bool_decide (k ∉ dom p)
                then <[k := nullable_number]> p else p) props ks.

(** The record line 83 writes for a payload: the rates [fd], the base
    currency at 1.0, and the two fixed entries. *)
Definition record_of (fd : gmap key value) (b : string) (d : date)
  : gmap key value :=
  <[KStr "date" := VStr (strftime_iso d)]>
    (<[KStr "base" := VStr b]> (<[KStr b := VNum 1]> fd)).

(** The day a state names, if it names one. *)
Definition state_day (st : value) : option date :=
  match st with
  | VDict d =>
      match d !! KStr "start_date" with
      | Some (VStr s) => strptime s
      | _ => None
      end
  | _ => None
  end.

(** A number that grows with the date. *)
Definition rank (d : date) : Z := (year d * 12 + month d) * 31 + day d.

(** The clock shows calendar days, none after the day [last]. *)
Definition clock_stops (w : world) (last : date) : Prop :=
  valid_date last = true
  ∧ ∀ n, valid_date (dt_date (utcnow w n)) = true
         ∧ date_leb (dt_date (utcnow w n)) last = true.

(** The state that names the day [s]. *)
Definition state_of (s : string) : value :=
  VDict {[ KStr "start_date" := VStr s ]}.

(** The states written by a run. *)
Definition state_messages (evs : list event) : list value :=
  omap (λ e, match e with MsgState st => Some st | _ => None end) evs.

(** The number of requests sent. *)
Definition requests (evs : list event) : nat :=
  List.length
    (List.filter (λ e, match e with HttpGet _ _ => true | _ => false end)
       evs).

(** How a run has ended and what it has written. *)
Definition ending (run : option (outcome * proc)) : option outcome :=
  fst <$> run.

Definition messages (run : option (outcome * proc)) : list event :=
  from_option (λ r, output r.2) [] run.

End Spec.
Export Spec.

(** ** Some runs *)

Module Scenario.

Definition noon (d : date) : datetime := mkdatetime d 43200000000.

(** The day a URL of the service asks for. *)
Definition requested_day (url : string) : string :=
  substring (String.length base_url) 10 url.

(** A document of the service: rates [{EUR: 0.9}] for [base] on [day]. *)
Definition rates_document (base day : string) : json :=
  JObj [("base", JStr base); ("date", JStr day);
        ("rates", JObj [("EUR", JNum (Q2Qc (9 # 10)))])].

Definition ok (j : json) : attempt := Responds (mkresponse 200 "" (Some j)).

(** It is noon of 2024-01-03 and the service answers every request with
    the rates of the requested day. *)
Definition steady : world :=
  mkworld (λ _, noon (mkdate 2024 1 3))
    (λ _ url, ok (rates_document "USD" (requested_day url)))
    (λ _, 0%Qc).

(** As [steady], but for 2024-01-02 the service has no rates and answers
    with those of the day before. *)
Definition holiday : world :=
  mkworld (λ _, noon (mkdate 2024 1 3))
    (λ _ url,
       if bool_decide (requested_day url = "2024-01-02")
       then ok (rates_document "USD" "2024-01-01")
       else ok (rates_document "USD" (requested_day url)))
    (λ _, 0%Qc).

(** The service answers every request with the same status and no body. *)
Definition refusing (status : Z) : world :=
  mkworld (λ _, noon (mkdate 2024 1 3))
    (λ _ _, Responds (mkresponse status "" None))
    (λ _, 0%Qc).

(** The service cannot be reached. *)
Definition unreachable : world :=
  mkworld (λ _, noon (mkdate 2024 1 3)) (λ _ _, NoResponse) (λ _, 0%Qc).

(** As [steady], but from the second request on the service answers 503. *)
Definition outage : world :=
  mkworld (λ _, noon (mkdate 2024 1 3))
    (λ n url,
       match n with
       | O => ok (rates_document "USD" (requested_day url))
       | _ => Responds (mkresponse 503 "" None)
       end)
    (λ _, 0%Qc).

(** As [steady], but the document for 2024-01-02 has no [date]. *)
Definition truncated : world :=
  mkworld (λ _, noon (mkdate 2024 1 3))
    (λ _ url,
       if bool_decide (requested_day url = "2024-01-02")
       then ok (JObj [("base", JStr "USD");
                      ("rates", JObj [("EUR", JNum (Q2Qc (9 # 10)))])])
       else ok (rates_document "USD" (requested_day url)))
    (λ _, 0%Qc).

(** The process once it has decoded the document of 2024-01-01: the rates
    are the object at address 1, the payload the one at address 2. *)
Definition decoded : proc :=
  (load (rates_document "USD" "2024-01-01") start).2.

(** The first iteration of a run in [steady] from 2024-01-01, step by step:
    the local variables, and the process after the test of the loop, after
    the request, after decoding, after the update of the schema and at the
    end of the iteration. *)
Definition day1 : locals := initial_locals "2024-01-01".

Definition day1_url : string := base_url ++ "2024-01-01".

Definition tested : proc := (loop_test steady day1 start).2.

Definition answered : proc :=
  (request steady day1_url [("apikey", "k")] tested).2.

Definition received : proc :=
  (load (rates_document "USD" "2024-01-01") answered).2.

Definition updated : proc := (update_schema (VRef 2%positive) received).2.

Definition finished : proc := (iteration steady "k" day1 tested).2.

(** The local variables after that iteration. *)
Definition day2 : locals :=
  mklocals (state_of "2024-01-01") "2024-01-02"
    (schema_of (properties finished)).

(** The second iteration of that run, step by step as the first; its
    payload is the object at address 4. *)
Definition day2_url : string := base_url ++ "2024-01-02".

Definition tested2 : proc := (loop_test steady day2 finished).2.

Definition answered2 : proc :=
  (request steady day2_url [("apikey", "k")] tested2).2.

Definition received2 : proc :=
  (load (rates_document "USD" "2024-01-02") answered2).2.

Definition updated2 : proc := (update_schema (VRef 4%positive) received2).2.

Definition finished2 : proc := (iteration steady "k" day2 tested2).2.

(** The local variables after the second iteration. *)
Definition day3 : locals :=
  mklocals (state_of "2024-01-02") "2024-01-03"
    (schema_of (properties finished2)).

End Scenario.

(** ** The start date [main] passes to [do_sync] *)

Module Main.

(** [d.get(k)] on a decoded document: [None] when the object has no member
    [k]; a document that is no object has no [get]. *)
Definition get (d : json) (k : string) : result json :=
  match d with
  | JObj members => Ok (default JNull (member k members))
  | _ => Raise AttributeError
  end.

(** The truth value of a decoded document, as [or] tests it. *)
Definition truthy (j : json) : bool :=
  match j with
  | JNull => false
  | JBool b => b
  | JNum q => negb (bool_decide (q = 0%Qc))
  | JStr s => negb (bool_decide (s = EmptyString))
  | JArr items => negb (bool_decide (items = []))
  | JObj members => negb (bool_decide (members = []))
  end.

Section WithWorld.

Variable w : world.

(** Lines 124-135 of [main].  The state is the document of the state file
    if one was named and the empty dict otherwise; the start date is the
    first that is true of the state's [start_date], the config's
    [start_date] and today's date, the operands of [or] being evaluated
    from left to right and only as far as needed.  The documents are only
    read, so they are kept by value. *)
Definition main_start_date (state_file : option json) (config : json)
  : M json :=
  let state := default (JObj []) state_file in
  s ← lift (get state "start_date");
  if truthy s then mret s else
  c ← lift (get config "start_date");
  if truthy c then mret c else
  now ← datetime_utcnow w;
  mret (JStr (strftime (dt_date now))).

End WithWorld.

End Main.
Export Main.

(** ** Vocabulary of the properties of the fetch client and of whole runs *)

Module Runs.

Import Scenario.

(** The pauses and the attempts that follow the first attempt of [request]:
    [n] times a pause of [interval] plus the jitter drawn, then a request;
    [d] draws were made before. *)
Fixpoint retries (w : world) (url : string) (headers : list (string * string))
    (d n : nat) : list event :=
  match n with
  | O => []
  | S n' =>
      Sleep (interval + random w d)%Qc :: HttpGet url headers
        :: retries w url headers (S d) n'
  end.

(** How the last attempt of a call of [request] went, given what the call
    gave; [left] is the number of tries that were left after it. *)
Definition last_attempt (a : attempt) (left : nat) (x : result response)
    (url : string) : Prop :=
  match a with
  | NoResponse => x = Raise AttributeError
  | Responds r =>
      if bool_decide (400 ≤ status_code r < 600)
      then x = Raise (RequestException (mkrx url (Some r)))
           ∧ (transient (status_code r) → left = 0%nat)
      else x = Ok r
  end.

(** The exceptions the [except] clauses turn into [sys.exit(-1)]. *)
Definition handled (e : exn) : Prop := handler e = SysExit (-1).

(** The day [n] days after [d], while the calendar lasts. *)
Fixpoint days_later (n : nat) (d : date) : option date :=
  match n with
  | O => Some d
  | S n' => d' ← days_later n' d; add_day d'
  end.

(** It is the day [today] at every reading of the clock. *)
Definition clock_shows (w : world) (today : date) : Prop :=
  valid_date today = true
  ∧ ∀ n, dt_date (utcnow w n) = today ∧ 0 ≤ dt_micros (utcnow w n).

(** Every response carries a JSON document. *)
Definition answers_in_json (w : world) : Prop :=
  ∀ n url r, http_get w n url = Responds r → is_Some (body r).

(** A request asks the service for one calendar day and carries the access
    key in the [apikey] header. *)
Definition to_service (access_key : string) (e : event) : Prop :=
  match e with
  | HttpGet url headers =>
      headers = [("apikey", access_key)]
      ∧ ∃ day d, url = (base_url ++ day)%string ∧ strptime day = Some d
  | _ => True
  end.

(** As [steady], but the first request meets a 503. *)
Definition flaky : world :=
  mkworld (λ _, noon (mkdate 2024 1 3))
    (λ n url,
       match n with
       | O => Responds (mkresponse 503 "" None)
       | _ => ok (rates_document "USD" (requested_day url))
       end)
    (λ _, 0%Qc).

(** The process once it has decoded a document without [date]: the rates
    are the object at address 1, the payload the one at address 2. *)
Definition undated : proc :=
  (load (JObj [("base", JStr "USD");
               ("rates", JObj [("EUR", JNum (Q2Qc (9 # 10)))])]) start).2.

End Runs.
Export Runs.

(** * Properties *)

Import Scenario.

#[local] Open Scope list_scope.

(** Closed decidable statements are settled by evaluating their decision
    procedure. *)
Ltac by_computation :=
  apply (bool_decide_unpack _); vm_compute; exact I.

(** ** The calendar *)

Lemma digit_cases n : 0 ≤ n < 10 →
  n = 0 ∨ n = 1 ∨ n = 2 ∨ n = 3 ∨ n = 4 ∨ n = 5 ∨ n = 6 ∨ n = 7 ∨ n = 8 ∨ n = 9.
Proof. lia. Qed.

Lemma digit_of_ascii_of_digit n :
  0 ≤ n < 10 → digit_of (ascii_of_digit n) = Some n.
Proof.
  intros H. destruct (digit_cases n H) as [->|[->|[->|[->|[->|[->|[->|[->|[->| ->]]]]]]]]];
    reflexivity.
Qed.

Lemma ascii_of_digit_not_dash n : 0 ≤ n < 10 → ascii_of_digit n ≠ dash.
Proof.
  intros H. destruct (digit_cases n H) as [->|[->|[->|[->|[->|[->|[->|[->|[->| ->]]]]]]]]];
    discriminate.
Qed.

Lemma ascii_of_digit_not_space n : 0 ≤ n < 10 → ascii_of_digit n ≠ space.
Proof.
  intros H. destruct (digit_cases n H) as [->|[->|[->|[->|[->|[->|[->|[->|[->| ->]]]]]]]]];
    discriminate.
Qed.

Lemma days_in_month_bounds y m : 28 ≤ days_in_month y m ≤ 31.
Proof. unfold days_in_month. repeat case_match; lia. Qed.

Lemma valid_date_bounds d :
  valid_date d = true →
  1 ≤ year d ≤ 9999 ∧ 1 ≤ month d ≤ 12 ∧ 1 ≤ day d ≤ days_in_month (year d) (month d).
Proof. unfold valid_date, MINYEAR, MAXYEAR. intros H. repeat (apply andb_prop in H as [H ?]). lia. Qed.

Lemma mod10 n : 0 ≤ n mod 10 < 10.
Proof. apply Z.mod_pos_bound. lia. Qed.

Lemma strptime_strftime d : valid_date d = true → strptime (strftime d) = Some d.
Proof.
  intros Hv. pose proof (valid_date_bounds d Hv) as (Hy & Hm & Hd).
  pose proof (days_in_month_bounds (year d) (month d)) as Hdim.
  unfold strptime, strftime.
  rewrite list_ascii_of_string_of_list_ascii.
  unfold four_digits, two_digits. cbn [app parse_Y].
  rewrite !digit_of_ascii_of_digit by apply mod10. cbn [mbind option_bind].
  rewrite bool_decide_eq_true_2 by reflexivity.
  cbn [parse_m].
  rewrite (bool_decide_eq_false_2 (ascii_of_digit _ = dash)) by (apply ascii_of_digit_not_dash, mod10).
  rewrite bool_decide_eq_true_2 by reflexivity.
  rewrite !digit_of_ascii_of_digit by apply mod10. cbn [mbind option_bind].
  replace (10 * (month d / 10 mod 10) + month d mod 10) with (month d) by (Z.to_euclidean_division_equations; lia).
  replace ((1 <=? month d) && (month d <=? 12)) with true by (symmetry; apply andb_true_intro; lia).
  cbn [parse_d].
  rewrite (bool_decide_eq_false_2 (ascii_of_digit _ = space)) by (apply ascii_of_digit_not_space, mod10).
  rewrite !digit_of_ascii_of_digit by apply mod10. cbn [mbind option_bind].
  replace (10 * (day d / 10 mod 10) + day d mod 10) with (day d) by (Z.to_euclidean_division_equations; lia).
  replace ((1 <=? day d) && (day d <=? 31)) with true by (symmetry; apply andb_true_intro; lia).
  replace (1000 * (year d / 1000 mod 10) + 100 * (year d / 100 mod 10) + 10 * (year d / 10 mod 10) + year d mod 10) with (year d) by (Z.to_euclidean_division_equations; lia).
  destruct d as [y m dd]. cbn [year month day] in *. rewrite Hv. reflexivity.
Qed.

(** ** Computations of the process *)

Section Monad.
Context {A B : Type}.

Lemma bind_ok (m : M A) (f : A → M B) σ a σ1 :
  m σ = (Ok a, σ1) → (m ≫= f) σ = f a σ1.
Proof. intros H. unfold mbind, M_bind. by rewrite H. Qed.

Lemma bind_raise (m : M A) (f : A → M B) σ e σ1 :
  m σ = (Raise e, σ1) → (m ≫= f) σ = (Raise e, σ1).
Proof. intros H. unfold mbind, M_bind. by rewrite H. Qed.

Lemma bind_inv (m : M A) (f : A → M B) σ r σ' :
  (m ≫= f) σ = (r, σ') →
  (∃ a σ1, m σ = (Ok a, σ1) ∧ f a σ1 = (r, σ'))
  ∨ (∃ e, m σ = (Raise e, σ') ∧ r = Raise e).
Proof.
  unfold mbind, M_bind. destruct (m σ) as [[a|e] σ1]; intros H.
  - left. eauto.
  - right. injection H as <- <-. eauto.
Qed.
End Monad.


Section Respects.
Context (R : relation proc) `{!Reflexive R, !Transitive R}.

Lemma respects_ret {A} (a : A) : respects R (mret a).
Proof. intros σ r σ' [= _ <-]. reflexivity. Qed.

Lemma respects_raise {A} e : respects R (@raise A e).
Proof. intros σ r σ' [= _ <-]. reflexivity. Qed.

Lemma respects_lift {A} (x : result A) : respects R (lift x).
Proof. intros σ r σ' [= _ <-]. reflexivity. Qed.

Lemma respects_or_raise {A} e (o : option A) : respects R (or_raise e o).
Proof. destruct o; [apply respects_ret | apply respects_raise]. Qed.

Lemma respects_bind {A B} (m : M A) (f : A → M B) :
  respects R m → (∀ a, respects R (f a)) → respects R (m ≫= f).
Proof.
  intros Hm Hf σ r σ' H. apply bind_inv in H as [(a & σ1 & H1 & H2)|(e & H1 & _)].
  - etrans; [by eapply Hm | by eapply Hf].
  - by eapply Hm.
Qed.

Lemma respects_for_each {A} (xs : list A) (body : A → M ()) :
  (∀ x, respects R (body x)) → respects R (for_each xs body).
Proof.
  intros Hb. induction xs as [|x xs IH]; simpl.
  - apply respects_ret.
  - apply respects_bind; auto.
Qed.

Lemma respects_get_store : respects R get_store.
Proof. intros σ r σ' [= _ <-]. reflexivity. Qed.

Lemma respects_get_properties : respects R get_properties.
Proof. intros σ r σ' [= _ <-]. reflexivity. Qed.

End Respects.




#[global] Instance writes_refl P : Reflexive (writes P).
Proof. intros σ. exists []. by rewrite app_nil_r. Qed.

#[global] Instance writes_trans P : Transitive (writes P).
Proof.
  intros σ1 σ2 σ3 (e1 & H1 & F1) (e2 & H2 & F2). exists (e1 ++ e2).
  rewrite H2, H1, <- app_assoc. split; [done | by apply Forall_app].
Qed.

#[global] Instance keeps_refl : Reflexive keeps.
Proof. by intros σ. Qed.

#[global] Instance keeps_trans : Transitive keeps.
Proof. unfold keeps. intros σ1 σ2 σ3 H1 H2. congruence. Qed.

#[global] Instance grows_refl : Reflexive grows.
Proof. intros σ. unfold grows. reflexivity. Qed.

#[global] Instance grows_trans : Transitive grows.
Proof. unfold grows. intros σ1 σ2 σ3 H1 H2. by etrans. Qed.

Lemma respects_weaken (R R' : relation proc) {A} (m : M A) :
  (∀ σ σ', R σ σ' → R' σ σ') → respects R m → respects R' m.
Proof. intros HR Hm σ r σ' H. eauto. Qed.

Lemma writes_mono (P Q : event → Prop) σ σ' :
  (∀ e, P e → Q e) → writes P σ σ' → writes Q σ σ'.
Proof. intros HPQ (evs & H & F). exists evs. split; [done|]. eapply Forall_impl; eauto. Qed.

Lemma keeps_grows σ σ' : keeps σ σ' → grows σ σ'.
Proof. unfold keeps, grows. intros ->. reflexivity. Qed.

Create HintDb respects.

Ltac respects :=
  repeat first
    [ apply respects_bind | apply respects_ret | apply respects_raise
    | apply respects_lift | apply respects_or_raise | apply respects_for_each
    | apply respects_get_store | apply respects_get_properties
    | progress intros | progress eauto with respects typeclass_instances | case_match ].

Section Primitives.
Context (w : world) (P : event → Prop).

Lemma writes_emit ev : P ev → respects (writes P) (emit ev).
Proof. intros HP σ r σ' [= _ <-]. exists [ev]. split; [done | by constructor]. Qed.

Lemma writes_put_store h : respects (writes P) (put_store h).
Proof. intros σ r σ' [= _ <-]. exists []. by rewrite app_nil_r. Qed.

Lemma writes_put_properties p : respects (writes P) (put_properties p).
Proof. intros σ r σ' [= _ <-]. exists []. by rewrite app_nil_r. Qed.

Lemma writes_alloc d : respects (writes P) (alloc d).
Proof. intros σ r σ' [= _ <-]. exists []. by rewrite app_nil_r. Qed.

Lemma writes_utcnow : respects (writes P) (datetime_utcnow w).
Proof. intros σ r σ' [= _ <-]. exists []. by rewrite app_nil_r. Qed.

Lemma writes_random : respects (writes P) (random_random w).
Proof. intros σ r σ' [= _ <-]. exists []. by rewrite app_nil_r. Qed.

Lemma writes_requests_get url hs :
  P (HttpGet url hs) → respects (writes P) (requests_get w url hs).
Proof.
  intros HP σ r σ' H. unfold requests_get in H.
  exists [HttpGet url hs]. split; [|by constructor].
  destruct (http_get w _ _); by injection H as _ <-.
Qed.

Lemma keeps_emit ev : respects keeps (emit ev).
Proof. by intros σ r σ' [= _ <-]. Qed.

Lemma keeps_put_store h : respects keeps (put_store h).
Proof. by intros σ r σ' [= _ <-]. Qed.

Lemma keeps_alloc d : respects keeps (alloc d).
Proof. by intros σ r σ' [= _ <-]. Qed.

Lemma keeps_utcnow : respects keeps (datetime_utcnow w).
Proof. by intros σ r σ' [= _ <-]. Qed.

Lemma keeps_random : respects keeps (random_random w).
Proof. by intros σ r σ' [= _ <-]. Qed.

Lemma keeps_requests_get url hs : respects keeps (requests_get w url hs).
Proof.
  intros σ r σ' H. unfold requests_get in H.
  destruct (http_get w _ _); by injection H as _ <-.
Qed.

End Primitives.

#[global] Hint Resolve writes_emit writes_put_store writes_put_properties
  writes_alloc writes_utcnow writes_random writes_requests_get
  keeps_emit keeps_put_store keeps_alloc keeps_utcnow keeps_random
  keeps_requests_get : respects.

Section Writes.
Context (w : world) (P : event → Prop).

Lemma writes_subscript v k : respects (writes P) (subscript v k).
Proof. unfold subscript. respects. Qed.

Lemma writes_store_item t k v : respects (writes P) (store_item t k v).
Proof. unfold store_item. respects. Qed.

Lemma writes_iterate v : respects (writes P) (iterate v).
Proof. unfold iterate. respects. Qed.

Lemma writes_time_strptime v : respects (writes P) (time_strptime v).
Proof. unfold time_strptime. respects. Qed.

#[local] Hint Resolve writes_subscript writes_store_item writes_iterate writes_time_strptime : respects.

Lemma writes_parse_response r : respects (writes P) (parse_response r).
Proof. unfold parse_response. respects. Qed.

Lemma writes_add_rate v : respects (writes P) (add_rate v).
Proof. unfold add_rate. respects. Qed.
#[local] Hint Resolve writes_add_rate : respects.
Lemma writes_update_schema v : respects (writes P) (update_schema v).
Proof. unfold update_schema. respects. Qed.

End Writes.

(** ** Building the payload *)

#[global] Instance allocates_refl : Reflexive allocates.
Proof. intros σ. by repeat split. Qed.

#[global] Instance allocates_trans : Transitive allocates.
Proof.
  intros σ1 σ2 σ3 (?&?&?&?&?&?) (?&?&?&?&?&?).
  repeat split; try congruence. by etrans.
Qed.

Lemma allocates_alloc d : respects allocates (alloc d).
Proof.
  intros σ r σ' [= _ <-]. repeat split; simpl.
  apply insert_subseteq, not_elem_of_dom, is_fresh.
Qed.

Lemma respects_load_items R `{!Reflexive R, !Transitive R} ld items :
  Forall (λ j, respects R (ld j)) items → respects R (load_items ld items).
Proof.
  induction 1 as [|x r Hx _ IH]; simpl.
  - by apply respects_ret.
  - apply respects_bind; [done..|]. intros v. apply respects_bind; [done..|].
    intros vs. by apply respects_ret.
Qed.

Lemma respects_load_members R `{!Reflexive R, !Transitive R} ld members d :
  Forall (λ kx, respects R (ld kx.2)) members →
  respects R (load_members ld members d).
Proof.
  intros H. revert d. induction H as [|[k x] r Hx _ IH]; intros d; simpl.
  - by apply respects_ret.
  - apply respects_bind; [done..|]. intros v. apply IH.
Qed.

Lemma respects_load R `{!Reflexive R, !Transitive R} :
  (∀ d, respects R (alloc d)) → ∀ j, respects R (load j).
Proof.
  intros Halloc. induction j using json_nested_ind; simpl;
    try by apply respects_ret.
  - apply respects_bind; [done..| |].
    + by apply respects_load_items.
    + intros vs. by apply respects_ret.
  - apply respects_bind; [done..| |].
    + by apply respects_load_members.
    + intros d. apply Halloc.
Qed.

Lemma allocates_load j : respects allocates (load j).
Proof. apply respects_load; [apply _..|]. apply allocates_alloc. Qed.


Lemma returns_bind {A B} (m : M A) (f : A → M B) :
  returns m → (∀ a, returns (f a)) → returns (m ≫= f).
Proof.
  intros Hm Hf σ. destruct (Hm σ) as (a & σ1 & H1).
  destruct (Hf a σ1) as (b & σ2 & H2). exists b, σ2.
  by rewrite (bind_ok _ _ _ _ _ H1).
Qed.

Lemma returns_ret {A} (a : A) : returns (mret a).
Proof. intros σ. by eexists _, _. Qed.

Lemma returns_load j : returns (load j).
Proof.
  induction j using json_nested_ind; simpl; try apply returns_ret.
  - apply returns_bind; [|intros; apply returns_ret].
    induction H as [|x r Hx _ IH]; simpl; [apply returns_ret|].
    apply returns_bind; [done|]. intros v. apply returns_bind; [done|].
    intros; apply returns_ret.
  - apply returns_bind; [|intros d σ; by eexists _, _].
    generalize (∅ : gmap key value).
    induction H as [|[k x] r Hx _ IH]; intros d; simpl; [apply returns_ret|].
    apply returns_bind; [done|]. intros v. apply IH.
Qed.


Lemma shallow_mono h h' j v : h ⊆ h' → shallow h j v → shallow h' j v.
Proof.
  intros Hh. destruct j; simpl; try done.
  intros (l & d & -> & Hl & Hd). exists l, d. split_and!; [done| |done].
  by eapply lookup_weaken.
Qed.

Lemma load_members_dom ms : ∀ d0 σ d σ',
  load_members load ms d0 σ = (Ok d, σ') →
  ∀ k : key, is_Some (d !! k)
             ↔ is_Some (d0 !! k) ∨ ∃ s, k = KStr s ∧ is_Some (member s ms).
Proof.
  induction ms as [|[k' x] r IH]; intros d0 σ d σ' H k; simpl in *.
  - injection H as <- <-. split; [by left|]. intros [?|(s & _ & [? [=]])]. done.
  - apply bind_inv in H as [(v & σ1 & Hx & Hr)|(e & _ & [=])].
    rewrite (IH _ _ _ _ Hr k). rewrite lookup_insert_is_Some.
    split.
    + intros [[<-|[_ ?]]|(s & -> & Hs)]; [|by left|].
      * right. exists k'. split; [done|].
        destruct (member k' r); [done|]. by rewrite bool_decide_eq_true_2.
      * right. exists s. split; [done|]. destruct Hs as [y ->]. done.
    + intros [?|(s & -> & Hs)].
      * destruct (decide (KStr k' = k)); [by left; left|]. left. by right.
      * destruct (member s r) as [y|] eqn:E; [right; eauto|].
        case_bool_decide; [subst|by destruct Hs]. by left; left.
Qed.

Lemma load_shallow j σ v σ' :
  load j σ = (Ok v, σ') → shallow (store σ') j v.
Proof.
  destruct j; simpl; intros H; try by injection H as <- <-.
  - apply bind_inv in H as [(vs & σ1 & _ & [= <- <-])|(e & _ & [=])]. eauto.
  - apply bind_inv in H as [(d & σ1 & Hd & [= <- <-])|(e & _ & [=])].
    eexists _, d. split_and!; [done|by simpl; rewrite lookup_insert_eq|].
    intros k. rewrite (load_members_dom _ _ _ _ _ Hd), lookup_empty.
    split; [intros [[? [=]]|?]; done|by right].
Qed.

Lemma load_members_spec ms : ∀ d0 σ d σ',
  load_members load ms d0 σ = (Ok d, σ') →
  ∀ s : string,
    match member s ms with
    | Some x => ∃ v, d !! KStr s = Some v ∧ shallow (store σ') x v
    | None => d !! KStr s = d0 !! KStr s
    end.
Proof.
  induction ms as [|[k' x] r IH]; intros d0 σ d σ' H s; simpl in *.
  - by injection H as <- <-.
  - apply bind_inv in H as [(v & σ1 & Hx & Hr)|(e & _ & [=])].
    specialize (IH _ _ _ _ Hr s). destruct (member s r) as [y|]; [done|].
    rewrite IH. case_bool_decide as Hk.
    + subst. rewrite lookup_insert_eq. eexists; split; [done|].
      eapply shallow_mono; [|by eapply load_shallow].
      eapply (respects_load_members allocates); [|done].
      apply Forall_forall. intros; apply allocates_load.
    + rewrite lookup_insert_ne; [done|congruence].
Qed.

(** The objects [response.json()] builds for a document that has the three
    members the program reads. *)
Lemma load_rate_payload members rs b s σ payload σ' :
  member "rates" members = Some (JObj rs) →
  member "base" members = Some (JStr b) →
  member "date" members = Some (JStr s) →
  load (JObj members) σ = (Ok payload, σ') →
  ∃ p pd f fd,
    payload = VRef p ∧ store σ' !! p = Some pd
    ∧ pd !! KStr "rates" = Some (VRef f) ∧ store σ' !! f = Some fd ∧ p ≠ f
    ∧ pd !! KStr "base" = Some (VStr b) ∧ pd !! KStr "date" = Some (VStr s)
    ∧ ∀ k : key, is_Some (fd !! k) ↔ ∃ c, k = KStr c ∧ is_Some (member c rs).
Proof.
  intros Hr Hb Hs H. simpl in H.
  apply bind_inv in H as [(pd & σ1 & Hd & [= <- <-])|(e & _ & [=])].
  pose proof (load_members_spec _ _ _ _ _ Hd "rates") as H1.
  pose proof (load_members_spec _ _ _ _ _ Hd "base") as H2.
  pose proof (load_members_spec _ _ _ _ _ Hd "date") as H3.
  rewrite Hr in H1. rewrite Hb in H2. rewrite Hs in H3.
  destruct H1 as (v1 & Hv1 & f & fd & -> & Hf & Hfd).
  destruct H2 as (v2 & Hv2 & ->). destruct H3 as (v3 & Hv3 & ->).
  set (p := fresh (dom (store σ1))).
  assert (p ≠ f) as Hpf.
  { intros <-. apply (is_fresh (dom (store σ1))). apply elem_of_dom; eauto. }
  exists p, pd, f, fd. simpl. split_and!; try done.
  - by rewrite lookup_insert_eq.
  - by rewrite lookup_insert_ne.
Qed.

Lemma load_missing_member members k σ payload σ' :
  member k members = None →
  load (JObj members) σ = (Ok payload, σ') →
  ∃ p pd, payload = VRef p ∧ store σ' !! p = Some pd ∧ pd !! KStr k = None.
Proof.
  intros Hk H. simpl in H.
  apply bind_inv in H as [(pd & σ1 & Hd & [= <- <-])|(e & _ & [=])].
  pose proof (load_members_spec _ _ _ _ _ Hd k) as H1. rewrite Hk in H1.
  eexists _, pd. split_and!; [done|by simpl; rewrite lookup_insert_eq|].
  by rewrite H1, lookup_empty.
Qed.

(** ** Reading and updating the payload *)

Lemma subscript_ref σ l d k v :
  store σ !! l = Some d → d !! KStr k = Some v →
  subscript (VRef l) k σ = (Ok v, σ).
Proof.
  intros Hl Hk. unfold subscript, mbind, M_bind, get_store. simpl.
  by rewrite Hl, Hk.
Qed.

Lemma subscript_ref_missing σ l d k :
  store σ !! l = Some d → d !! KStr k = None →
  subscript (VRef l) k σ = (Raise (KeyError (KStr k)), σ).
Proof.
  intros Hl Hk. unfold subscript, mbind, M_bind, get_store. simpl.
  by rewrite Hl, Hk.
Qed.

Lemma store_item_ref σ l d k kk v :
  store σ !! l = Some d → to_key k = Ok kk →
  store_item (VRef l) k v σ
  = (Ok (), set_store (<[l := <[kk := v]> d]> (store σ)) σ).
Proof.
  intros Hl Hk. unfold store_item, mbind, M_bind, get_store, lift. simpl.
  by rewrite Hl, Hk.
Qed.

Lemma set_store_set_store h h' σ : set_store h (set_store h' σ) = set_store h σ.
Proof. done. Qed.

Lemma store_set_store h σ : store (set_store h σ) = h.
Proof. done. Qed.

(** What [parse_response] does to a payload whose [rates] entry is a dict
    object other than the payload itself. *)
Lemma parse_response_spec σ p pd f fd bv kb s d :
  store σ !! p = Some pd →
  pd !! KStr "rates" = Some (VRef f) →
  store σ !! f = Some fd →
  p ≠ f →
  pd !! KStr "base" = Some bv →
  to_key bv = Ok kb →
  pd !! KStr "date" = Some (VStr s) →
  strptime s = Some d →
  parse_response (VRef p) σ
  = (Ok (VRef f),
     set_store
       (<[f := <[KStr "date" := VStr (strftime_iso d)]>
                 (<[KStr "base" := bv]> (<[kb := VNum 1]> fd))]> (store σ)) σ).
Proof.
  intros Hp Hr Hf Hpf Hb Hk Hd Hs. unfold parse_response.
  assert (f ≠ p) as Hfp by congruence.
  erewrite bind_ok by (by eapply subscript_ref).
  erewrite bind_ok by (by eapply subscript_ref).
  erewrite bind_ok by (by eapply store_item_ref).
  erewrite bind_ok by (eapply subscript_ref; [simpl; by rewrite lookup_insert_ne|done]).
  erewrite bind_ok by (eapply store_item_ref; [simpl; rewrite lookup_insert_eq; reflexivity|done]).
  erewrite bind_ok by (eapply subscript_ref; [simpl; by rewrite !lookup_insert_ne|done]).
  erewrite bind_ok by (unfold time_strptime; rewrite Hs; reflexivity).
  erewrite bind_ok by (eapply store_item_ref; [simpl; rewrite lookup_insert_eq; reflexivity|done]).
  simpl. unfold mret, M_ret. f_equal. unfold set_store; simpl. f_equal.
  by rewrite !insert_insert_eq.
Qed.

(** ** What each part of the program may change *)

Lemma allocates_writes P σ σ' : allocates σ σ' → writes P σ σ'.
Proof. intros (_&_&H&_). exists []. by rewrite H, app_nil_r. Qed.

Lemma allocates_keeps σ σ' : allocates σ σ' → keeps σ σ'.
Proof. by intros (_&H&_). Qed.

Section Frames.
Context (w : world).

Lemma respects_on_exception R `{!Reflexive R, !Transitive R} {A}
    n (target : M A) :
  respects R target →
  (∀ e, respects R (giveup e)) →
  respects R (random_random w) →
  (∀ s, respects R (emit (Sleep s))) →
  respects R (on_exception w n target).
Proof.
  intros Ht Hg Hr Hs. induction n as [|n IH]; intros σ r σ' H; simpl in H.
  - destruct (target σ) as [[a|[]] σ1] eqn:E;
      try (injection H as <- <-; by eapply Ht).
    etrans; [by eapply Ht|]. revert H. apply respects_bind; [done..|].
    intros []; by apply respects_raise.
  - destruct (target σ) as [[a|[]] σ1] eqn:E;
      try (injection H as <- <-; by eapply Ht).
    etrans; [by eapply Ht|]. revert H. apply respects_bind; [done..|].
    intros []; [by apply respects_raise|].
    unfold random_jitter. respects.
Qed.

Lemma respects_giveup R `{!Reflexive R, !Transitive R} e :
  respects R (giveup e).
Proof. unfold giveup. respects. Qed.

Lemma respects_raise_for_status R `{!Reflexive R, !Transitive R} url r :
  respects R (raise_for_status url r).
Proof. unfold raise_for_status. respects. Qed.

Lemma respects_request_once R `{!Reflexive R, !Transitive R} url hs :
  respects R (requests_get w url hs) → respects R (request_once w url hs).
Proof.
  intros H. unfold request_once. apply respects_bind; [done..|].
  intros r. apply respects_bind; [done..| |].
  - by apply respects_raise_for_status.
  - intros. by apply respects_ret.
Qed.

Lemma writes_request url hs :
  respects (writes is_request) (request w url hs).
Proof.
  unfold request. apply respects_on_exception; try apply _.
  - apply respects_request_once; try apply _. by apply writes_requests_get.
  - intros; apply respects_giveup; apply _.
  - apply writes_random.
  - intros. by apply writes_emit.
Qed.

Lemma keeps_request url hs : respects keeps (request w url hs).
Proof.
  unfold request. apply respects_on_exception; try apply _.
  - apply respects_request_once; try apply _. by apply keeps_requests_get.
  - intros; apply respects_giveup; apply _.
  - apply keeps_random.
  - intros. by apply keeps_emit.
Qed.

Lemma allocates_response_json r : respects allocates (response_json r).
Proof.
  unfold response_json. apply respects_bind; try apply _.
  - apply respects_or_raise; apply _.
  - intros. apply allocates_load.
Qed.

Lemma writes_loop_test P l : respects (writes P) (loop_test w l).
Proof. unfold loop_test. respects. Qed.

Lemma keeps_loop_test l : respects keeps (loop_test w l).
Proof. unfold loop_test. respects. Qed.

Lemma keeps_subscript v k : respects keeps (subscript v k).
Proof. unfold subscript. respects. Qed.

Lemma keeps_store_item t k v : respects keeps (store_item t k v).
Proof. unfold store_item. respects. Qed.

Lemma keeps_iterate v : respects keeps (iterate v).
Proof. unfold iterate. respects. Qed.

Lemma keeps_time_strptime v : respects keeps (time_strptime v).
Proof. unfold time_strptime. respects. Qed.

#[local] Hint Resolve keeps_subscript keeps_store_item keeps_iterate keeps_time_strptime
  writes_subscript writes_store_item writes_iterate writes_time_strptime
  writes_parse_response : respects.

Lemma keeps_parse_response r : respects keeps (parse_response r).
Proof. unfold parse_response. respects. Qed.

#[local] Hint Resolve keeps_parse_response : respects.

Lemma grows_add_rate v : respects grows (add_rate v).
Proof.
  intros σ r σ' H. unfold add_rate in H.
  apply bind_inv in H as [(k & σ1 & [= Hk <-] & H)|(e & [= _ <-] & _)]; [|done].
  apply bind_inv in H as [(p & σ1 & [= <- <-] & H)|(e & [=] & _)].
  case_bool_decide as Hd; injection H as _ <-; [|done].
  unfold grows; simpl. apply insert_subseteq. by apply not_elem_of_dom.
Qed.

Lemma grows_update_schema payload : respects grows (update_schema payload).
Proof.
  unfold update_schema.
  apply respects_bind; try apply _.
  { eapply respects_weaken; [apply keeps_grows|apply keeps_subscript]. }
  intros rates. apply respects_bind; try apply _.
  { eapply respects_weaken; [apply keeps_grows|apply keeps_iterate]. }
  intros items. apply respects_for_each; try apply _. apply grows_add_rate.
Qed.

Lemma writes_write_record l payload :
  respects (writes is_record) (write_record_if_date_matches l payload).
Proof. unfold write_record_if_date_matches. respects; by apply writes_emit. Qed.

Lemma keeps_write_record l payload :
  respects keeps (write_record_if_date_matches l payload).
Proof. unfold write_record_if_date_matches. respects. Qed.

Lemma writes_write_schema l :
  respects (writes is_schema) (write_schema_if_changed l).
Proof. unfold write_schema_if_changed, schema. respects; by apply writes_emit. Qed.

Lemma keeps_write_schema l : respects keeps (write_schema_if_changed l).
Proof. unfold write_schema_if_changed, schema. respects. Qed.

Lemma writes_advance P l : respects (writes P) (advance l).
Proof. unfold advance, schema. respects. Qed.

Lemma keeps_advance l : respects keeps (advance l).
Proof. unfold advance, schema. respects. Qed.

End Frames.

(** ** The parts of the loop body *)

Lemma set_properties_id σ : set_properties (properties σ) σ = σ.
Proof. by destruct σ. Qed.

Lemma to_key_of_key k : to_key (of_key k) = Ok k.
Proof. by destruct k. Qed.

Lemma add_rate_key v k σ :
  to_key v = Ok k →
  add_rate v σ
  = (Ok (), set_properties (add_fields [k] (properties σ)) σ).
Proof.
  intros Hk. unfold add_rate, lift, mbind, M_bind, get_properties. rewrite Hk.
  simpl. case_bool_decide; [done|]. by rewrite set_properties_id.
Qed.

Lemma for_each_add_rate ks : ∀ σ,
  for_each (of_key <$> ks) add_rate σ
  = (Ok (), set_properties (add_fields ks (properties σ)) σ).
Proof.
  induction ks as [|k ks IH]; intros σ; simpl.
  - unfold mret, M_ret. by rewrite set_properties_id.
  - erewrite bind_ok by (apply add_rate_key, to_key_of_key).
    rewrite IH. done.
Qed.

Lemma add_fields_lookup ks : ∀ props k,
  add_fields ks props !! k
  = match props !! k with
    | Some v => Some v
    | None => if bool_decide (k ∈ ks) then Some nullable_number else None
    end.
Proof.
  induction ks as [|k' ks IH]; intros props k.
  - unfold add_fields; cbn [foldl]. destruct (props !! k); [done|].
    by rewrite bool_decide_eq_false_2 by set_solver.
  - unfold add_fields in *. cbn [foldl]. rewrite IH. case_bool_decide as Hd.
    + destruct (decide (k' = k)) as [->|Hne].
      * rewrite lookup_insert_eq. apply not_elem_of_dom in Hd. rewrite Hd.
        by rewrite bool_decide_eq_true_2 by set_solver.
      * rewrite lookup_insert_ne by done. destruct (props !! k); [done|].
        replace (bool_decide (k ∈ k' :: ks)) with (bool_decide (k ∈ ks));
          [done|]. apply bool_decide_ext. rewrite elem_of_cons.
        split; [by right|]. by intros [->|?].
    + destruct (props !! k) eqn:E; [done|].
      replace (bool_decide (k ∈ k' :: ks)) with (bool_decide (k ∈ ks));
        [done|]. apply bool_decide_ext. split; [set_solver|].
      intros [->|?]%elem_of_cons; [|done].
      apply elem_of_dom in Hd as [? ?]. congruence.
Qed.

Lemma add_fields_grows ks props : props ⊆ add_fields ks props.
Proof.
  apply map_subseteq_spec. intros k v Hk. by rewrite add_fields_lookup, Hk.
Qed.

Lemma subscript_dict σ v d k x :
  dict_of (store σ) v = Some d → d !! KStr k = Some x →
  subscript v k σ = (Ok x, σ).
Proof.
  intros Hv Hk. unfold subscript, mbind, M_bind, get_store. rewrite Hv. simpl.
  by rewrite Hk.
Qed.

Lemma subscript_dict_missing σ v d k :
  dict_of (store σ) v = Some d → d !! KStr k = None →
  subscript v k σ = (Raise (KeyError (KStr k)), σ).
Proof.
  intros Hv Hk. unfold subscript, mbind, M_bind, get_store. rewrite Hv. simpl.
  by rewrite Hk.
Qed.

Lemma iterate_dict σ v d :
  dict_of (store σ) v = Some d →
  iterate v σ = (Ok (of_key <$> (map_to_list d).*1), σ).
Proof.
  intros Hv. unfold iterate, mbind, M_bind, get_store. simpl.
  destruct v; simplify_eq/=; [done|]. by rewrite Hv.
Qed.

(** Lines 74-76 on a payload whose [rates] entry is a dict. *)
Lemma update_schema_spec σ payload pd rates fd :
  dict_of (store σ) payload = Some pd →
  pd !! KStr "rates" = Some rates →
  dict_of (store σ) rates = Some fd →
  update_schema payload σ
  = (Ok (), set_properties
              (add_fields (map_to_list fd).*1 (properties σ)) σ).
Proof.
  intros Hp Hr Hf. unfold update_schema.
  erewrite bind_ok by (by eapply subscript_dict).
  erewrite bind_ok by (by apply iterate_dict).
  apply for_each_add_rate.
Qed.

Lemma write_schema_spec l σ :
  write_schema_if_changed l σ
  = (Ok (),
     if bool_decide (schema_of (properties σ) ≠ prev_schema l)
     then write (MsgSchema "exchange_rate" (schema_of (properties σ)) "date") σ
     else σ).
Proof.
  unfold write_schema_if_changed, schema, mbind, M_bind, get_properties.
  simpl. by case_bool_decide.
Qed.

Lemma write_record_skip l σ payload pd date :
  dict_of (store σ) payload = Some pd →
  pd !! KStr "date" = Some date →
  date ≠ VStr (next_date l) →
  write_record_if_date_matches l payload σ = (Ok (), σ).
Proof.
  intros Hp Hd Hne. unfold write_record_if_date_matches.
  erewrite bind_ok by (by eapply subscript_dict).
  by rewrite bool_decide_eq_false_2.
Qed.

Lemma write_record_spec l σ p pd f fd bv kb d :
  store σ !! p = Some pd →
  pd !! KStr "rates" = Some (VRef f) →
  store σ !! f = Some fd →
  p ≠ f →
  pd !! KStr "base" = Some bv →
  to_key bv = Ok kb →
  pd !! KStr "date" = Some (VStr (next_date l)) →
  strptime (next_date l) = Some d →
  let record := <[KStr "date" := VStr (strftime_iso d)]>
                  (<[KStr "base" := bv]> (<[kb := VNum 1]> fd)) in
  write_record_if_date_matches l (VRef p) σ
  = (Ok (), write (MsgRecord "exchange_rate" (VDict record))
              (set_store (<[f := record]> (store σ)) σ)).
Proof.
  intros Hp Hr Hf Hpf Hb Hk Hd Hs record. unfold write_record_if_date_matches.
  erewrite bind_ok by (by eapply subscript_ref).
  rewrite bool_decide_eq_true_2 by done.
  erewrite bind_ok by (by eapply parse_response_spec).
  unfold mbind, M_bind, get_store, emit. simpl.
  by rewrite lookup_insert_eq.
Qed.

Lemma advance_spec l σ d d' :
  strptime (next_date l) = Some d → add_day d = Some d' →
  advance l σ
  = (Ok (mklocals (VDict {[ KStr "start_date" := VStr (next_date l) ]})
           (strftime d') (schema_of (properties σ))), σ).
Proof.
  intros Hd Hd'. unfold advance, schema, mbind, M_bind, get_properties.
  rewrite Hd. simpl. by rewrite Hd'.
Qed.

Lemma advance_inv l σ l' σ' :
  advance l σ = (Ok l', σ') →
  σ' = σ ∧ ∃ d d',
    strptime (next_date l) = Some d ∧ add_day d = Some d'
    ∧ l' = mklocals (VDict {[ KStr "start_date" := VStr (next_date l) ]})
             (strftime d') (schema_of (properties σ)).
Proof.
  unfold advance, schema, mbind, M_bind, get_properties.
  destruct (strptime _) as [d|] eqn:Hd; [|done]. simpl.
  destruct (add_day d) as [d'|] eqn:Hd'; [|done]. simpl.
  intros [= <- <-]. split; [done|]. by exists d, d'.
Qed.

(** ** The fetch client *)

Section Request.
Context (w : world).

Lemma request_once_no_response σ url headers :
  http_get w (requests_sent σ) url = NoResponse →
  request_once w url headers σ
  = (Raise (RequestException (mkrx url None)),
     write (HttpGet url headers) (count_request σ)).
Proof.
  intros H. unfold request_once, mbind, M_bind, requests_get. by rewrite H.
Qed.

Lemma request_once_error_status σ url headers r :
  http_get w (requests_sent σ) url = Responds r →
  400 ≤ status_code r < 600 →
  request_once w url headers σ
  = (Raise (RequestException (mkrx url (Some r))),
     write (HttpGet url headers) (count_request σ)).
Proof.
  intros H Hs. unfold request_once, mbind, M_bind, requests_get, raise_for_status.
  rewrite H. simpl.
  replace ((400 <=? status_code r) && (status_code r <? 600)) with true
    by (symmetry; apply andb_true_intro; lia).
  done.
Qed.

Lemma request_once_success σ url headers r :
  http_get w (requests_sent σ) url = Responds r →
  ¬ 400 ≤ status_code r < 600 →
  request_once w url headers σ
  = (Ok r, write (HttpGet url headers) (count_request σ)).
Proof.
  intros H Hs. unfold request_once, mbind, M_bind, requests_get, raise_for_status.
  rewrite H. simpl.
  replace ((400 <=? status_code r) && (status_code r <? 600)) with false;
    [done|].
  symmetry. apply andb_false_iff. lia.
Qed.

Lemma giveup_transient e r σ :
  rx_response e = Some r → transient (status_code r) →
  giveup e σ = (Ok false, σ).
Proof.
  intros He Hs. unfold giveup. rewrite He. unfold mret, M_ret. do 2 f_equal.
  apply negb_false_iff, orb_true_iff. destruct Hs; [left|right]; lia.
Qed.

Lemma giveup_other e r σ :
  rx_response e = Some r → ¬ transient (status_code r) →
  giveup e σ = (Ok true, σ).
Proof.
  intros He Hs. unfold giveup. rewrite He. unfold mret, M_ret. do 2 f_equal.
  apply negb_true_iff, orb_false_iff. unfold transient in Hs. lia.
Qed.

(** A first attempt that succeeds. *)
Lemma request_success σ url headers r :
  http_get w (requests_sent σ) url = Responds r →
  ¬ 400 ≤ status_code r < 600 →
  request w url headers σ
  = (Ok r, write (HttpGet url headers) (count_request σ)).
Proof.
  intros H Hs. unfold request. simpl.
  by rewrite (request_once_success _ _ _ _ H Hs).
Qed.

(** X6. A response whose status is a client error other than 429 ends
    [request] at the first attempt: its [HTTPError] is raised, one request
    was sent and no pause was made. *)
Lemma request_gives_up_at_once σ url headers r :
  http_get w (requests_sent σ) url = Responds r →
  400 ≤ status_code r < 500 → status_code r ≠ 429 →
  request w url headers σ
  = (Raise (RequestException (mkrx url (Some r))),
     write (HttpGet url headers) (count_request σ)).
Proof.
  intros H Hs H429. unfold request. simpl.
  rewrite (request_once_error_status _ _ _ _ H) by lia.
  erewrite bind_ok by (eapply giveup_other; [done|unfold transient; simpl; lia]).
  done.
Qed.

(** One round of the retry loop on a transient failure. *)
Lemma on_exception_again {A} n (tgt : M A) σ e r σ1 :
  tgt σ = (Raise (RequestException e), σ1) →
  rx_response e = Some r → transient (status_code r) →
  on_exception w (S n) tgt σ
  = on_exception w n tgt
      (write (Sleep (interval + random w (draws σ1))%Qc) (count_draw σ1)).
Proof.
  intros Ht He Hs. simpl. rewrite Ht.
  erewrite bind_ok by (by eapply giveup_transient). done.
Qed.

Lemma on_exception_exhausted {A} (tgt : M A) σ e r σ1 :
  tgt σ = (Raise (RequestException e), σ1) →
  rx_response e = Some r →
  on_exception w 0 tgt σ = (Raise (RequestException e), σ1).
Proof.
  intros Ht He. simpl. rewrite Ht. unfold giveup. rewrite He.
  unfold mbind, M_bind, mret, M_ret. by destruct (negb _).
Qed.

(** X5. When five attempts in a row meet a 429 or a 5xx, [request] makes
    exactly these five attempts, pauses for 30 seconds plus the jitter
    drawn between two of them, and raises the [HTTPError] of the fifth
    response. *)
Lemma request_retries_five_times σ url headers (rs : nat → response) :
  (∀ i, (i < 5)%nat →
        http_get w (requests_sent σ + i) url = Responds (rs i)
        ∧ 400 ≤ status_code (rs i) < 600
        ∧ transient (status_code (rs i))) →
  ∃ σ',
    request w url headers σ
    = (Raise (RequestException (mkrx url (Some (rs 4%nat)))), σ')
    ∧ emitted σ σ'
      = [HttpGet url headers; Sleep (interval + random w (draws σ))%Qc;
         HttpGet url headers; Sleep (interval + random w (draws σ + 1))%Qc;
         HttpGet url headers; Sleep (interval + random w (draws σ + 2))%Qc;
         HttpGet url headers; Sleep (interval + random w (draws σ + 3))%Qc;
         HttpGet url headers].
Proof.
  intros H.
  destruct (H 0%nat) as (H0 & B0 & T0); [lia|].
  destruct (H 1%nat) as (H1 & B1 & T1); [lia|].
  destruct (H 2%nat) as (H2 & B2 & T2); [lia|].
  destruct (H 3%nat) as (H3 & B3 & T3); [lia|].
  destruct (H 4%nat) as (H4 & B4 & T4); [lia|].
  rewrite Nat.add_0_r in H0.
  replace (requests_sent σ + 1)%nat with (S (requests_sent σ)) in H1 by lia.
  replace (requests_sent σ + 2)%nat with (S (S (requests_sent σ))) in H2 by lia.
  replace (requests_sent σ + 3)%nat
    with (S (S (S (requests_sent σ)))) in H3 by lia.
  replace (requests_sent σ + 4)%nat
    with (S (S (S (S (requests_sent σ))))) in H4 by lia.
  replace (draws σ + 1)%nat with (S (draws σ)) by lia.
  replace (draws σ + 2)%nat with (S (S (draws σ))) by lia.
  replace (draws σ + 3)%nat with (S (S (S (draws σ)))) by lia.
  unfold request, max_tries. cbn [Nat.sub].
  erewrite on_exception_again;
    [|by apply request_once_error_status|done|done].
  erewrite on_exception_again;
    [|by apply request_once_error_status|done|done].
  erewrite on_exception_again;
    [|by apply request_once_error_status|done|done].
  erewrite on_exception_again;
    [|by apply request_once_error_status|done|done].
  erewrite on_exception_exhausted;
    [|by apply request_once_error_status|done].
  eexists. split; [done|].
  unfold emitted. simpl. rewrite <- !app_assoc. by rewrite drop_app_length.
Qed.

End Request.

(** C4 (what the code does where the claim fails).  When an attempt meets
    no response at all (connection error, timeout), [giveup] raises an
    [AttributeError] on [error.response.text]; the error leaves the retry
    loop at once: one request was sent, no pause was made, nothing was
    retried. *)
Theorem request_without_response_is_not_retried w σ url headers :
  http_get w (requests_sent σ) url = NoResponse →
  request w url headers σ
  = (Raise AttributeError, write (HttpGet url headers) (count_request σ)).
Proof.
  intros H. unfold request. simpl.
  by rewrite (request_once_no_response _ _ _ _ H).
Qed.

Lemma request_without_response_is_not_retried_witness :
  request unreachable (base_url ++ "2024-01-01") [("apikey", "k")] start
  = (Raise AttributeError,
     write (HttpGet (base_url ++ "2024-01-01") [("apikey", "k")])
       (count_request start)).
Proof.
  apply (request_without_response_is_not_retried unreachable start).
  reflexivity.
Defined.

(** ** The record *)

(** C7. For every payload that has a base currency code (a string other
    than the two fixed names [base] and [date]), a rates mapping and a date,
    the record [parse_response] builds maps the base currency code to 1.0,
    [base] to the base currency code and [date] to the payload's date printed
    as the timestamp of its midnight, [YYYY-MM-DDT00:00:00Z]. *)
Theorem parse_response_normalizes σ members rs b s d :
  member "rates" members = Some (JObj rs) →
  member "base" members = Some (JStr b) →
  b ≠ "base" → b ≠ "date" →
  member "date" members = Some (JStr s) →
  strptime s = Some d →
  ∃ payload σ1 record σ2 rec,
    load (JObj members) σ = (Ok payload, σ1)
    ∧ parse_response payload σ1 = (Ok record, σ2)
    ∧ dict_of (store σ2) record = Some rec
    ∧ rec !! KStr b = Some (VNum 1)
    ∧ rec !! KStr "base" = Some (VStr b)
    ∧ rec !! KStr "date" = Some (VStr (strftime d ++ "T00:00:00Z")%string).
Proof.
  intros Hr Hb Hb1 Hb2 Hs Hd.
  destruct (returns_load (JObj members) σ) as (payload & σ1 & Hload).
  destruct (load_rate_payload _ _ _ _ _ _ _ Hr Hb Hs Hload)
    as (p & pd & f & fd & -> & Hp & Hpr & Hf & Hpf & Hpb & Hpd & _).
  eexists _, _, _, _, _. split; [done|]. split.
  { by eapply parse_response_spec. }
  simpl. rewrite lookup_insert_eq. split; [done|].
  split_and!.
  - rewrite !lookup_insert_ne by congruence. by rewrite lookup_insert_eq.
  - rewrite lookup_insert_ne by congruence. by rewrite lookup_insert_eq.
  - by rewrite lookup_insert_eq.
Qed.

Lemma parse_response_normalizes_witness :
  ∃ payload σ1 record σ2 rec,
    load (rates_document "USD" "2024-01-01") start = (Ok payload, σ1)
    ∧ parse_response payload σ1 = (Ok record, σ2)
    ∧ dict_of (store σ2) record = Some rec
    ∧ rec !! KStr "USD" = Some (VNum 1)
    ∧ rec !! KStr "base" = Some (VStr "USD")
    ∧ rec !! KStr "date" = Some (VStr "2024-01-01T00:00:00Z").
Proof.
  apply (parse_response_normalizes start _
           [("EUR", JNum (Q2Qc (9 # 10)))] "USD" "2024-01-01"
           (mkdate 2024 1 1)); first [reflexivity | discriminate].
Defined.

(** C10. [parse_response] returns the very dict object that the payload
    holds under [rates], and has updated it in place: after the call that
    object maps the base currency code to 1.0, [base] to the base currency
    code and [date] to the timestamp, and is otherwise as before; for a
    rates mapping from currency codes to numbers the payload is therefore
    not what it was before the call. *)
Theorem parse_response_updates_in_place σ p pd f fd b s d :
  store σ !! p = Some pd →
  pd !! KStr "rates" = Some (VRef f) →
  store σ !! f = Some fd →
  map_Forall (λ _ v, ∃ q, v = VNum q) fd →
  pd !! KStr "base" = Some (VStr b) →
  b ≠ "base" → b ≠ "date" →
  pd !! KStr "date" = Some (VStr s) →
  strptime s = Some d →
  ∃ σ' fd',
    parse_response (VRef p) σ = (Ok (VRef f), σ')
    ∧ subscript (VRef p) "rates" σ' = (Ok (VRef f), σ')
    ∧ store σ' !! f = Some fd'
    ∧ fd' !! KStr b = Some (VNum 1)
    ∧ fd' !! KStr "base" = Some (VStr b)
    ∧ fd' !! KStr "date" = Some (VStr (strftime_iso d))
    ∧ (∀ k, k ≠ KStr b → k ≠ KStr "base" → k ≠ KStr "date" →
            fd' !! k = fd !! k)
    ∧ fd' ≠ fd
    ∧ (∀ l, l ≠ f → store σ' !! l = store σ !! l).
Proof.
  intros Hp Hr Hf Hnum Hb Hb1 Hb2 Hs Hd.
  assert (p ≠ f) as Hpf.
  { intros ->. assert (pd = fd) as -> by congruence.
    destruct (Hnum _ _ Hr) as [q [=]]. }
  eexists _, _. split; [by eapply parse_response_spec|].
  simpl. split_and!.
  - eapply subscript_ref; [|done]. simpl. by rewrite lookup_insert_ne.
  - by rewrite lookup_insert_eq.
  - rewrite !lookup_insert_ne by congruence. by rewrite lookup_insert_eq.
  - rewrite lookup_insert_ne by congruence. by rewrite lookup_insert_eq.
  - by rewrite lookup_insert_eq.
  - intros k ? ? ?. by rewrite !lookup_insert_ne.
  - intros E. assert (fd !! KStr "base" = Some (VStr b)) as Hx.
    { rewrite <- E. rewrite lookup_insert_ne by congruence.
      by rewrite lookup_insert_eq. }
    destruct (Hnum _ _ Hx) as [q [=]].
  - intros l ?. by rewrite lookup_insert_ne.
Qed.

Lemma parse_response_updates_in_place_witness :
  ∃ σ' fd',
    parse_response (VRef 2%positive) decoded = (Ok (VRef 1%positive), σ')
    ∧ subscript (VRef 2%positive) "rates" σ' = (Ok (VRef 1%positive), σ')
    ∧ store σ' !! 1%positive = Some fd'
    ∧ fd' !! KStr "USD" = Some (VNum 1)
    ∧ fd' !! KStr "base" = Some (VStr "USD")
    ∧ fd' !! KStr "date" = Some (VStr (strftime_iso (mkdate 2024 1 1)))
    ∧ (∀ k, k ≠ KStr "USD" → k ≠ KStr "base" → k ≠ KStr "date" →
            fd' !! k = ({[ KStr "EUR" := VNum (Q2Qc (9 # 10)) ]} : dict) !! k)
    ∧ fd' ≠ {[ KStr "EUR" := VNum (Q2Qc (9 # 10)) ]}
    ∧ (∀ l, l ≠ 1%positive → store σ' !! l = store decoded !! l).
Proof.
  apply (parse_response_updates_in_place decoded 2%positive
           {[ KStr "base" := VStr "USD"; KStr "date" := VStr "2024-01-01";
              KStr "rates" := VRef 1%positive ]}
           1%positive {[ KStr "EUR" := VNum (Q2Qc (9 # 10)) ]}
           "USD" "2024-01-01" (mkdate 2024 1 1));
    try by_computation; try discriminate.
  intros k v [_ <-]%lookup_singleton_Some. eauto.
Defined.

(** ** The following day *)

Lemma strptime_valid s d : strptime s = Some d → valid_date d = true.
Proof.
  unfold strptime. intros H.
  destruct (parse_Y _) as [[y r1]|]; [|done].
  destruct r1 as [|c r1]; [done|].
  destruct (bool_decide (c = dash)); [|done].
  destruct (parse_m r1) as [[m r2]|]; [|done].
  destruct (parse_d r2) as [dd|]; [|done].
  destruct (valid_date (mkdate y m dd)) eqn:E; [|done].
  by injection H as <-.
Qed.

Lemma add_day_cases d d' :
  add_day d = Some d' →
  (day d < days_in_month (year d) (month d)
   ∧ d' = mkdate (year d) (month d) (day d + 1))
  ∨ (days_in_month (year d) (month d) ≤ day d ∧ month d < 12
     ∧ d' = mkdate (year d) (month d + 1) 1)
  ∨ (days_in_month (year d) (month d) ≤ day d ∧ 12 ≤ month d
     ∧ year d < MAXYEAR ∧ d' = mkdate (year d + 1) 1 1).
Proof.
  unfold add_day.
  destruct (Z.ltb_spec (day d) (days_in_month (year d) (month d)));
    [intros [= <-]; by left|].
  destruct (Z.ltb_spec (month d) 12); [intros [= <-]; right; by left|].
  destruct (Z.ltb_spec (year d) MAXYEAR); [|done].
  intros [= <-]. right; by right.
Qed.

Lemma valid_date_intro y m dd :
  1 ≤ y ≤ 9999 → 1 ≤ m ≤ 12 → 1 ≤ dd ≤ days_in_month y m →
  valid_date (mkdate y m dd) = true.
Proof.
  intros. unfold valid_date, MINYEAR, MAXYEAR. cbn [year month day].
  repeat (apply andb_true_intro; split); lia.
Qed.

Lemma add_day_valid d d' :
  valid_date d = true → add_day d = Some d' → valid_date d' = true.
Proof.
  intros Hv H. pose proof (valid_date_bounds d Hv) as (Hy & Hm & Hd).
  pose proof (days_in_month_bounds (year d + 1) 1).
  pose proof (days_in_month_bounds (year d) (month d + 1)).
  destruct (add_day_cases _ _ H) as [(?&->)|[(?&?&->)|(?&?&?&->)]];
    unfold MAXYEAR in *; apply valid_date_intro; lia.
Qed.

Lemma add_day_later d d' :
  valid_date d = true → add_day d = Some d' → date_ltb d d' = true.
Proof.
  intros Hv H. pose proof (valid_date_bounds d Hv) as (Hy & Hm & Hd).
  unfold date_ltb.
  destruct (add_day_cases _ _ H) as [(?&->)|[(?&?&->)|(?&?&?&->)]];
    cbn [year month day].
  - rewrite Z.eqb_refl, Z.eqb_refl.
    replace (day d <? day d + 1) with true by (symmetry; lia).
    by rewrite !orb_true_r.
  - rewrite Z.eqb_refl.
    replace (month d <? month d + 1) with true by (symmetry; lia).
    by rewrite orb_true_r.
  - by replace (year d <? year d + 1) with true by (symmetry; lia).
Qed.

Lemma strptime_next s d d' :
  strptime s = Some d → add_day d = Some d' →
  strptime (strftime d') = Some d'.
Proof.
  intros Hs Hd. apply strptime_strftime.
  eapply add_day_valid; [|done]. by eapply strptime_valid.
Qed.


(** ** One iteration *)

Lemma emitted_app σ σ' evs : output σ' = output σ ++ evs → emitted σ σ' = evs.
Proof. intros H. unfold emitted. by rewrite H, drop_app_length. Qed.

Lemma writes_emitted P σ σ' : writes P σ σ' → Forall P (emitted σ σ').
Proof. intros (evs & H & F). by rewrite (emitted_app _ _ _ H). Qed.

Lemma writes_emitted_app P σ σ1 σ' :
  writes P σ σ1 → (∃ evs, output σ' = output σ1 ++ evs) →
  emitted σ σ' = emitted σ σ1 ++ emitted σ1 σ'.
Proof.
  intros (e1 & H1 & _) (e2 & H2).
  rewrite (emitted_app _ _ _ H1), (emitted_app _ _ _ H2).
  apply emitted_app. by rewrite H2, H1, app_assoc.
Qed.

Lemma response_json_load r j σ :
  body r = Some j → response_json r σ = load j σ.
Proof. intros H. unfold response_json. by rewrite H. Qed.

(** Lines 74-89 on a payload of the expected form. *)
Lemma process_rates_payload l σ p pd f fd b s D D' :
  store σ !! p = Some pd →
  pd !! KStr "rates" = Some (VRef f) →
  store σ !! f = Some fd →
  p ≠ f →
  pd !! KStr "base" = Some (VStr b) →
  pd !! KStr "date" = Some (VStr s) →
  strptime (next_date l) = Some D →
  add_day D = Some D' →
  let props := add_fields (map_to_list fd).*1 (properties σ) in
  ∃ σ',
    process l (VRef p) σ
    = (Ok (mklocals (VDict {[ KStr "start_date" := VStr (next_date l) ]})
             (strftime D') (schema_of props)), σ')
    ∧ properties σ' = props
    ∧ output σ'
      = output σ
        ++ (if bool_decide (schema_of props ≠ prev_schema l)
            then [MsgSchema "exchange_rate" (schema_of props) "date"]
            else [])
        ++ (if bool_decide (s = next_date l)
            then [MsgRecord "exchange_rate" (VDict (record_of fd b D))]
            else []).
Proof.
  intros Hp Hr Hf Hpf Hb Hd HD HD' props. unfold process.
  erewrite bind_ok by (by eapply (update_schema_spec _ (VRef p))).
  erewrite bind_ok by apply write_schema_spec.
  fold props. simpl.
  set (σ1 := if bool_decide (schema_of props ≠ prev_schema l)
             then write _ _ else _).
  assert (store σ1 = store σ ∧ properties σ1 = props
          ∧ output σ1
            = output σ
              ++ (if bool_decide (schema_of props ≠ prev_schema l)
                  then [MsgSchema "exchange_rate" (schema_of props) "date"]
                  else [])) as (Hs1 & Hp1 & Ho1).
  { unfold σ1. case_bool_decide; simpl; by rewrite ?app_nil_r. }
  destruct (decide (s = next_date l)) as [->|Hdate].
  - rewrite (bool_decide_eq_true_2 (next_date l = next_date l)) by done.
    erewrite bind_ok.
    2:{ eapply write_record_spec; rewrite ?Hs1; done. }
    erewrite advance_spec by done. simpl.
    eexists. split; [by rewrite Hp1|]. simpl.
    split; [done|]. by rewrite Ho1, <- app_assoc.
  - rewrite (bool_decide_eq_false_2 (s = next_date l)) by done.
    erewrite bind_ok.
    2:{ eapply (write_record_skip _ _ (VRef p)); simpl; rewrite ?Hs1; [done..|].
        congruence. }
    erewrite advance_spec by done.
    eexists. split; [by rewrite Hp1|].
    split; [done|]. by rewrite Ho1, app_nil_r.
Qed.

(** Lines 67-89 when the service answers with a document of the expected
    form. *)
Lemma iteration_rates_document w access_key l σ resp σ1 members rs b s D D' :
  request w (base_url ++ next_date l)%string [("apikey", access_key)] σ
  = (Ok resp, σ1) →
  body resp = Some (JObj members) →
  member "rates" members = Some (JObj rs) →
  member "base" members = Some (JStr b) →
  member "date" members = Some (JStr s) →
  strptime (next_date l) = Some D →
  add_day D = Some D' →
  ∃ fd σ',
    let props := add_fields (map_to_list fd).*1 (properties σ) in
    (∀ k : key, is_Some (fd !! k) ↔ ∃ c, k = KStr c ∧ is_Some (member c rs))
    ∧ iteration w access_key l σ
      = (Ok (mklocals (VDict {[ KStr "start_date" := VStr (next_date l) ]})
               (strftime D') (schema_of props)), σ')
    ∧ properties σ' = props
    ∧ output σ'
      = output σ1
        ++ (if bool_decide (schema_of props ≠ prev_schema l)
            then [MsgSchema "exchange_rate" (schema_of props) "date"]
            else [])
        ++ (if bool_decide (s = next_date l)
            then [MsgRecord "exchange_rate" (VDict (record_of fd b D))]
            else []).
Proof.
  intros Hreq Hbody Hr Hb Hs HD HD'.
  destruct (returns_load (JObj members) σ1) as (payload & σ2 & Hload).
  destruct (load_rate_payload _ _ _ _ _ _ _ Hr Hb Hs Hload)
    as (p & pd & f & fd & -> & Hp & Hpr & Hf & Hpf & Hpb & Hpd & Hdom).
  destruct (allocates_load _ _ _ _ Hload) as (_ & Hprops & Hout & _).
  destruct (process_rates_payload l σ2 p pd f fd b s D D')
    as (σ' & Hproc & Hp' & Ho'); try done.
  assert (properties σ1 = properties σ) as Hk by (by eapply keeps_request).
  exists fd, σ'. simpl. split; [done|]. split_and!.
  - unfold iteration. erewrite bind_ok by done.
    erewrite bind_ok by (by rewrite (response_json_load _ _ _ Hbody)).
    rewrite Hproc. by rewrite Hprops, Hk.
  - by rewrite Hp', Hprops, Hk.
  - by rewrite Ho', Hout, Hprops, Hk.
Qed.

(** ** Claims on one iteration *)

(** C6. In an iteration that requests day D and receives a payload of the
    expected form (base code, date, rates object), a record is written if
    and only if the payload's date is D; when it is another date no record
    is written, nothing is raised, and the cursor still moves to the day
    after D (D being a day that has a following day in the calendar of
    [datetime]). *)
Theorem record_written_iff_dates_agree
    w access_key l σ resp σ1 members rs b s D D' :
  request w (base_url ++ next_date l)%string [("apikey", access_key)] σ
  = (Ok resp, σ1) →
  body resp = Some (JObj members) →
  member "rates" members = Some (JObj rs) →
  member "base" members = Some (JStr b) →
  member "date" members = Some (JStr s) →
  strptime (next_date l) = Some D →
  add_day D = Some D' →
  ∃ l' σ',
    iteration w access_key l σ = (Ok l', σ')
    ∧ next_date l' = strftime D'
    ∧ strptime (next_date l') = Some D'
    ∧ ((∃ record, MsgRecord "exchange_rate" record ∈ emitted σ σ')
       ↔ s = next_date l)
    ∧ (s ≠ next_date l → Forall (λ e, ¬ is_record e) (emitted σ σ')).
Proof.
  intros Hreq Hbody Hr Hb Hs HD HD'.
  destruct (iteration_rates_document _ _ _ _ _ _ _ _ _ _ _ _
              Hreq Hbody Hr Hb Hs HD HD') as (fd & σ' & _ & Hit & _ & Hout).
  pose proof (writes_request _ _ _ _ _ _ Hreq) as Hw.
  assert (emitted σ σ' = emitted σ σ1 ++ emitted σ1 σ') as Hem
    by (eapply writes_emitted_app; eauto).
  pose proof (writes_emitted _ _ _ Hw) as Hq.
  rewrite (emitted_app _ _ _ Hout) in Hem.
  eexists _, σ'. split; [done|]. simpl. split; [done|].
  split; [by eapply strptime_next|].
  rewrite Hem. split.
  - split.
    + intros [record Hin]. apply elem_of_app in Hin as [Hin|Hin].
      { rewrite list.Forall_forall in Hq. destruct (Hq _ Hin). }
      apply elem_of_app in Hin as [Hin|Hin].
      { destruct (bool_decide _);
          [by apply list_elem_of_singleton in Hin
          |by apply elem_of_nil in Hin]. }
      case_bool_decide; [done|by apply elem_of_nil in Hin].
    + intros ->. eexists.
      rewrite (bool_decide_eq_true_2 (next_date l = next_date l)) by done.
      rewrite !elem_of_app. right; right. apply list_elem_of_singleton.
      reflexivity.
  - intros Hne. rewrite (bool_decide_eq_false_2 (s = next_date l) Hne).
    rewrite app_nil_r.
    apply Forall_app. split.
    + eapply list.Forall_impl; [exact Hq|]. intros []; simpl; tauto.
    + case_bool_decide; [|done]. repeat constructor. simpl. tauto.
Qed.

Lemma record_written_iff_dates_agree_witness :
  ∃ l' σ',
    iteration holiday "k" (initial_locals "2024-01-02") start = (Ok l', σ')
    ∧ next_date l' = strftime (mkdate 2024 1 3)
    ∧ strptime (next_date l') = Some (mkdate 2024 1 3)
    ∧ ((∃ record, MsgRecord "exchange_rate" record ∈ emitted start σ')
       ↔ "2024-01-01" = next_date (initial_locals "2024-01-02"))
    ∧ ("2024-01-01" ≠ next_date (initial_locals "2024-01-02") →
       Forall (λ e, ¬ is_record e) (emitted start σ')).
Proof.
  eapply (record_written_iff_dates_agree holiday "k"
            (initial_locals "2024-01-02") start _ _ _ _ "USD" "2024-01-01"
            (mkdate 2024 1 2) (mkdate 2024 1 3)).
  - vm_compute. reflexivity.
  - reflexivity.
  - reflexivity.
  - reflexivity.
  - reflexivity.
  - by_computation.
  - by_computation.
Defined.

(** ** Iterations in general *)

Lemma writes_nothing_output σ σ' : writes nothing σ σ' → output σ' = output σ.
Proof.
  intros (evs & H & F). destruct evs as [|e evs]; [by rewrite H, app_nil_r|].
  by inversion F.
Qed.

Lemma grows_iteration w access_key l : respects grows (iteration w access_key l).
Proof.
  unfold iteration, process.
  apply respects_bind; try apply _.
  { eapply respects_weaken; [apply keeps_grows|apply keeps_request]. }
  intros resp. apply respects_bind; try apply _.
  { eapply respects_weaken; [|apply allocates_response_json].
    intros ???. by apply keeps_grows, allocates_keeps. }
  intros payload. apply respects_bind; try apply _.
  { apply grows_update_schema. }
  intros _. apply respects_bind; try apply _.
  { eapply respects_weaken; [apply keeps_grows|apply keeps_write_schema]. }
  intros _. apply respects_bind; try apply _.
  { eapply respects_weaken; [apply keeps_grows|apply keeps_write_record]. }
  intros _. eapply respects_weaken; [apply keeps_grows|apply keeps_advance].
Qed.

(** No part of an iteration writes a state message. *)
Lemma writes_iteration w access_key l :
  respects (writes (λ e, ¬ is_state e)) (iteration w access_key l).
Proof.
  unfold iteration, process.
  apply respects_bind; try apply _.
  { eapply respects_weaken; [|apply writes_request].
    intros ??. apply writes_mono. intros []; simpl; tauto. }
  intros resp. apply respects_bind; try apply _.
  { eapply respects_weaken; [|apply allocates_response_json].
    intros ???. by apply allocates_writes. }
  intros payload. apply respects_bind; try apply _.
  { apply writes_update_schema. }
  intros _. apply respects_bind; try apply _.
  { eapply respects_weaken; [|apply writes_write_schema].
    intros ??. apply writes_mono. intros []; simpl; tauto. }
  intros _. apply respects_bind; try apply _.
  { eapply respects_weaken; [|apply writes_write_record].
    intros ??. apply writes_mono. intros []; simpl; tauto. }
  intros _. apply writes_advance.
Qed.

(** What a complete iteration leaves in the local variables. *)
Lemma iteration_ok_inv w access_key l σ l' σ' :
  iteration w access_key l σ = (Ok l', σ') →
  ∃ d d',
    strptime (next_date l) = Some d ∧ add_day d = Some d'
    ∧ l' = mklocals (VDict {[ KStr "start_date" := VStr (next_date l) ]})
             (strftime d') (schema_of (properties σ')).
Proof.
  unfold iteration, process. intros H.
  apply bind_inv in H as [(resp & σ1 & _ & H)|(e & _ & [=])].
  apply bind_inv in H as [(payload & σ2 & _ & H)|(e & _ & [=])].
  apply bind_inv in H as [(? & σ3 & _ & H)|(e & _ & [=])].
  apply bind_inv in H as [(? & σ4 & _ & H)|(e & _ & [=])].
  apply bind_inv in H as [(? & σ5 & _ & H)|(e & _ & [=])].
  apply advance_inv in H as (-> & d & d' & Hd & Hd' & ->). eauto.
Qed.

(** The part of lines 74-89 that follows the update of the schema. *)
Lemma process_after_update l payload σ σ1 :
  update_schema payload σ = (Ok (), σ1) →
  process l payload σ
  = (write_record_if_date_matches l payload ≫= λ _, advance l)
      (if bool_decide (schema_of (properties σ1) ≠ prev_schema l)
       then write (MsgSchema "exchange_rate" (schema_of (properties σ1))
                     "date") σ1
       else σ1).
Proof.
  intros H. unfold process. erewrite bind_ok by done.
  by erewrite bind_ok by apply write_schema_spec.
Qed.

Lemma writes_after_schema l payload :
  respects (writes is_record)
    (write_record_if_date_matches l payload ≫= λ _, advance l).
Proof.
  apply respects_bind; try apply _; [apply writes_write_record|].
  intros _. apply writes_advance.
Qed.

Lemma keeps_after_schema l payload :
  respects keeps (write_record_if_date_matches l payload ≫= λ _, advance l).
Proof.
  apply respects_bind; try apply _; [apply keeps_write_record|].
  intros _. apply keeps_advance.
Qed.

(** The schema is never the empty dict. *)
Lemma schema_of_not_empty props : schema_of props ≠ VDict ∅.
Proof.
  unfold schema_of. intros H.
  assert (({[ KStr "type" := VStr "object";
              KStr "properties" := VDict props ]} : gmap key value)
          !! KStr "type" = (∅ : gmap key value) !! KStr "type") as E
    by congruence.
  by rewrite lookup_insert_eq, lookup_empty in E.
Qed.

(** ** The loop *)

Lemma loop_head_S w n start_date access_key σ0 l' σ' :
  loop_head w (S n) start_date access_key σ0 = Some (l', σ') ↔
  ∃ l σ σ1,
    loop_head w n start_date access_key σ0 = Some (l, σ)
    ∧ loop_test w l σ = (Ok true, σ1)
    ∧ iteration w access_key l σ1 = (Ok l', σ').
Proof.
  simpl. split.
  - destruct (loop_head w n _ _ _) as [[l σ]|]; [|done].
    destruct (loop_test w l σ) as [[[]|] σ1] eqn:Ht; try done.
    destruct (iteration w access_key l σ1) as [[l2|] σ2] eqn:Hi; [|done].
    intros [= <- <-]. eauto 10.
  - intros (l & σ & σ1 & -> & -> & ->). done.
Qed.

(** At the head of the loop the snapshot is the empty dict before the first
    iteration and the schema as it stands after any other. *)
Lemma loop_head_snapshot w n start_date access_key σ0 l σ :
  loop_head w n start_date access_key σ0 = Some (l, σ) →
  prev_schema l = match n with
                  | O => VDict ∅
                  | S _ => schema_of (properties σ)
                  end.
Proof.
  destruct n as [|n].
  - by intros [= <- <-].
  - intros (l0 & σa & σb & _ & _ & Hi)%loop_head_S.
    apply iteration_ok_inv in Hi as (d & d' & _ & _ & ->). done.
Qed.

Lemma grows_loop_test w l : respects grows (loop_test w l).
Proof. eapply respects_weaken; [apply keeps_grows|apply keeps_loop_test]. Qed.

Lemma loop_head_grows w start_date access_key σ0 n : ∀ m l σ l' σ',
  (n ≤ m)%nat →
  loop_head w n start_date access_key σ0 = Some (l, σ) →
  loop_head w m start_date access_key σ0 = Some (l', σ') →
  properties σ ⊆ properties σ'.
Proof.
  induction m as [|m IH]; intros l σ l' σ' Hnm Hn Hm.
  - assert (n = 0%nat) as -> by lia. by simplify_eq.
  - destruct (decide (n = S m)) as [->|Hne]; [by simplify_eq|].
    apply loop_head_S in Hm as (l1 & σ1 & σ2 & Hm & Ht & Hi).
    etrans; [eapply (IH _ _ _ _ _ Hn Hm)|].
    etrans; [by eapply grows_loop_test|by eapply grows_iteration].
    Unshelve. lia.
Qed.

(** Running the loop from its start is running it from any of its heads. *)
Lemma while_from_head w start_date access_key σ0 n : ∀ fuel l σ,
  loop_head w n start_date access_key σ0 = Some (l, σ) →
  while w (n + fuel) access_key (initial_locals start_date) σ0
  = while w fuel access_key l σ.
Proof.
  induction n as [|n IH]; intros fuel l σ H.
  - by injection H as <- <-.
  - apply loop_head_S in H as (l1 & σ1 & σ2 & Hh & Ht & Hi).
    replace (S n + fuel)%nat with (n + S fuel)%nat by lia.
    rewrite (IH _ _ _ Hh). simpl. by rewrite Ht, Hi.
Qed.

(** Nothing the loop does writes a state message. *)
Lemma writes_while w access_key fuel : ∀ l σ r σ',
  while w fuel access_key l σ = Some (r, σ') →
  writes (λ e, ¬ is_state e) σ σ'.
Proof.
  induction fuel as [|fuel IH]; intros l σ r σ' H; [done|].
  simpl in H.
  destruct (loop_test w l σ) as [[[]|e] σ1] eqn:Ht.
  - destruct (iteration w access_key l σ1) as [[l2|e] σ2] eqn:Hi.
    + etrans; [by eapply (writes_loop_test w)|].
      etrans; [by eapply writes_iteration|by eapply IH].
    + injection H as <- <-.
      etrans; [by eapply (writes_loop_test w)|by eapply writes_iteration].
  - injection H as <- <-. by eapply (writes_loop_test w).
  - injection H as <- <-. by eapply (writes_loop_test w).
Qed.

(** What an iteration writes once the schema is up to date: the requests,
    the schema message if the schema is not the snapshot, and records. *)
Lemma iteration_output w access_key l σ resp σ1 payload σ2 σ3 r σ' :
  request w (base_url ++ next_date l)%string [("apikey", access_key)] σ
  = (Ok resp, σ1) →
  response_json resp σ1 = (Ok payload, σ2) →
  update_schema payload σ2 = (Ok (), σ3) →
  iteration w access_key l σ = (r, σ') →
  let sch := schema_of (properties σ3) in
  ∃ requests records,
    Forall is_request requests ∧ Forall is_record records
    ∧ emitted σ σ'
      = requests
        ++ (if bool_decide (sch ≠ prev_schema l)
            then [MsgSchema "exchange_rate" sch "date"] else [])
        ++ records
    ∧ properties σ' = properties σ3
    ∧ properties σ2 = properties σ.
Proof.
  intros Hreq Hjson Hupd Hit sch.
  unfold iteration in Hit.
  erewrite bind_ok in Hit by done. erewrite bind_ok in Hit by done.
  rewrite (process_after_update _ _ _ _ Hupd) in Hit. fold sch in Hit.
  destruct (writes_request _ _ _ _ _ _ Hreq) as (requests & Ho1 & Hq).
  destruct (allocates_response_json _ _ _ _ Hjson) as (_ & Hp2 & Ho2 & _).
  pose proof (writes_nothing_output _ _
                (writes_update_schema nothing _ _ _ _ Hupd)) as Ho3.
  destruct (writes_after_schema _ _ _ _ _ Hit) as (records & Ho4 & Hrec).
  pose proof (keeps_after_schema _ _ _ _ _ Hit) as Hk4.
  pose proof (keeps_request _ _ _ _ _ _ Hreq) as Hk1.
  exists requests, records. split_and!; [done|done| | |].
  - apply emitted_app. rewrite Ho4. case_bool_decide; simpl.
    + rewrite Ho3, Ho2, Ho1. by rewrite <- !app_assoc.
    + rewrite Ho3, Ho2, Ho1. by rewrite <- !app_assoc.
  - rewrite Hk4. by case_bool_decide.
  - unfold keeps in *. congruence.
Qed.

(** ** Iterations as parts of a run *)

(** The loop of a run goes through every iteration that starts at one of
    its heads. *)
Lemma while_through_iteration
    w n start_date access_key σ0 l σ σt r σ' fuel :
  loop_head w n start_date access_key σ0 = Some (l, σ) →
  loop_test w l σ = (Ok true, σt) →
  iteration w access_key l σt = (r, σ') →
  while w (n + S fuel) access_key (initial_locals start_date) σ0
  = match r with
    | Ok l' => while w fuel access_key l' σ'
    | Raise e => Some (Raise e, σ')
    end.
Proof.
  intros Hhead Htest Hit.
  rewrite (while_from_head _ _ _ _ _ _ _ _ Hhead).
  simpl. rewrite Htest, Hit. by destruct r.
Qed.

Lemma loop_head_output w n start_date access_key σ0 : ∀ l σ,
  loop_head w n start_date access_key σ0 = Some (l, σ) →
  ∃ evs, output σ = output σ0 ++ evs.
Proof.
  induction n as [|n IH]; intros l σ H.
  - injection H as _ <-. exists []. by rewrite app_nil_r.
  - apply loop_head_S in H as (l1 & σ1 & σ2 & Hh & Ht & Hi).
    destruct (IH _ _ Hh) as (e0 & H0).
    destruct (writes_loop_test w (λ _, True) _ _ _ _ Ht) as (e1 & H1 & _).
    destruct (writes_iteration _ _ _ _ _ _ Hi) as (e2 & H2 & _).
    exists (e0 ++ e1 ++ e2). by rewrite H2, H1, H0, <- !app_assoc.
Qed.

Lemma grows_while w access_key fuel : ∀ l σ r σ',
  while w fuel access_key l σ = Some (r, σ') →
  properties σ ⊆ properties σ'.
Proof.
  induction fuel as [|fuel IH]; intros l σ r σ' H; [done|].
  simpl in H.
  destruct (loop_test w l σ) as [[[]|e] σ1] eqn:Ht.
  - destruct (iteration w access_key l σ1) as [[l2|e] σ2] eqn:Hi.
    + etrans; [by eapply grows_loop_test|].
      etrans; [by eapply grows_iteration|by eapply IH].
    + injection H as <- <-.
      etrans; [by eapply grows_loop_test|by eapply grows_iteration].
  - injection H as <- <-. by eapply grows_loop_test.
  - injection H as <- <-. by eapply grows_loop_test.
Qed.

(** What a run that goes through an iteration has written and declared
    when it ends. *)
Lemma run_through_iteration
    w n start_date access_key σ0 l σ σt r σ' fuel o σf :
  loop_head w n start_date access_key σ0 = Some (l, σ) →
  loop_test w l σ = (Ok true, σt) →
  iteration w access_key l σt = (r, σ') →
  do_sync w (n + S fuel) start_date access_key σ0 = Some (o, σf) →
  (∃ later, emitted σ0 σf = emitted σ0 σt ++ emitted σt σ' ++ later)
  ∧ properties σ' ⊆ properties σf.
Proof.
  intros Hhead Htest Hit Hrun. unfold do_sync in Hrun.
  rewrite (while_through_iteration _ _ _ _ _ _ _ _ _ _ fuel Hhead Htest Hit)
    in Hrun.
  destruct (loop_head_output _ _ _ _ _ _ _ Hhead) as (e0 & H0).
  destruct (writes_loop_test w (λ _, True) _ _ _ _ Htest) as (e1 & H1 & _).
  destruct (writes_iteration _ _ _ _ _ _ Hit) as (e2 & H2 & _).
  assert (output σt = output σ0 ++ (e0 ++ e1)) as Ht
    by (by rewrite H1, H0, <- app_assoc).
  rewrite (emitted_app _ _ _ Ht), (emitted_app _ _ _ H2).
  assert (∀ later, output σf = output σ' ++ later →
            emitted σ0 σf = (e0 ++ e1) ++ e2 ++ later) as Hem.
  { intros later Hl. apply emitted_app. by rewrite Hl, H2, Ht, <- !app_assoc. }
  destruct r as [l'|e].
  - destruct (while w fuel access_key l' σ') as [[[lf|e] σ2]|] eqn:Hw;
      [| |done].
    + simpl in Hrun. injection Hrun as _ <-.
      destruct (writes_while _ _ _ _ _ _ _ Hw) as (e3 & H3 & _).
      split; [|simpl; by eapply grows_while].
      exists (e3 ++ [MsgState (state lf)]). apply Hem. simpl.
      by rewrite H3, <- app_assoc.
    + injection Hrun as _ <-.
      destruct (writes_while _ _ _ _ _ _ _ Hw) as (e3 & H3 & _).
      split; [|by eapply grows_while]. exists e3. by apply Hem.
  - injection Hrun as _ <-. split; [|done].
    exists []. apply Hem. by rewrite app_nil_r.
Qed.

(** C5. In every run the schema message is written in the first iteration,
    whatever the payload adds to the schema, and in a later iteration if and
    only if the schema, once brought up to date for the payload, is not
    equal to the snapshot, which is the schema as it stood at the end of the
    iteration before; an iteration writes no other schema message.  The
    iteration is one of the run: the loop of [do_sync] goes through it, and
    what it writes is part of what the run has written when it ends. *)
Theorem schema_written_first_and_on_change
    w n start_date access_key σ0 l σ σt resp σ1 payload σ2 σ3 r σ' :
  loop_head w n start_date access_key σ0 = Some (l, σ) →
  loop_test w l σ = (Ok true, σt) →
  request w (base_url ++ next_date l)%string [("apikey", access_key)] σt
  = (Ok resp, σ1) →
  response_json resp σ1 = (Ok payload, σ2) →
  update_schema payload σ2 = (Ok (), σ3) →
  iteration w access_key l σt = (r, σ') →
  let sch := schema_of (properties σ3) in
  (n ≠ 0%nat → prev_schema l = schema_of (properties σ))
  ∧ (MsgSchema "exchange_rate" sch "date" ∈ emitted σt σ'
     ↔ n = 0%nat ∨ sch ≠ prev_schema l)
  ∧ (∀ e, e ∈ emitted σt σ' → is_schema e →
          e = MsgSchema "exchange_rate" sch "date")
  ∧ (∀ fuel,
       while w (n + S fuel) access_key (initial_locals start_date) σ0
       = match r with
         | Ok l' => while w fuel access_key l' σ'
         | Raise e => Some (Raise e, σ')
         end)
  ∧ (∀ fuel o σf,
       do_sync w (n + S fuel) start_date access_key σ0 = Some (o, σf) →
       ∃ later, emitted σ0 σf = emitted σ0 σt ++ emitted σt σ' ++ later).
Proof.
  intros Hhead Htest Hreq Hjson Hupd Hit sch.
  pose proof (loop_head_snapshot _ _ _ _ _ _ _ Hhead) as Hsnap.
  destruct (iteration_output _ _ _ _ _ _ _ _ _ _ _ Hreq Hjson Hupd Hit)
    as (requests & records & Hq & Hrec & Hem & _ & _).
  fold sch in Hem. rewrite list.Forall_forall in Hq, Hrec.
  split_and!.
  - destruct n; [done|]. by intros _.
  - rewrite Hem, !elem_of_app. split.
    + intros [Hin|[Hin|Hin]].
      * destruct (Hq _ Hin).
      * case_bool_decide; [by right|by apply elem_of_nil in Hin].
      * destruct (Hrec _ Hin).
    + intros Hor. right; left.
      rewrite bool_decide_eq_true_2; [by apply list_elem_of_singleton|].
      destruct Hor as [->|?]; [|done]. rewrite Hsnap.
      apply schema_of_not_empty.
  - intros e. rewrite Hem, !elem_of_app. intros [Hin|[Hin|Hin]] He.
    + apply Hq in Hin. by destruct e.
    + case_bool_decide; [by apply list_elem_of_singleton in Hin
                        |by apply elem_of_nil in Hin].
    + apply Hrec in Hin. by destruct e.
  - intros fuel. by eapply while_through_iteration.
  - intros fuel o σf Hrun.
    by destruct (run_through_iteration _ _ _ _ _ _ _ _ _ _ _ _ _
                   Hhead Htest Hit Hrun).
Qed.

Lemma schema_written_first_and_on_change_witness :
  let sch := schema_of (properties updated2) in
  (1%nat ≠ 0%nat → prev_schema day2 = schema_of (properties finished))
  ∧ (MsgSchema "exchange_rate" sch "date" ∈ emitted tested2 finished2
     ↔ 1%nat = 0%nat ∨ sch ≠ prev_schema day2)
  ∧ (∀ e, e ∈ emitted tested2 finished2 → is_schema e →
          e = MsgSchema "exchange_rate" sch "date")
  ∧ (∀ fuel,
       while steady (1 + S fuel) "k" (initial_locals "2024-01-01") start
       = while steady fuel "k" day3 finished2)
  ∧ (∀ fuel o σf,
       do_sync steady (1 + S fuel) "2024-01-01" "k" start = Some (o, σf) →
       ∃ later,
         emitted start σf
         = emitted start tested2 ++ emitted tested2 finished2 ++ later).
Proof.
  apply (schema_written_first_and_on_change steady 1 "2024-01-01" "k" start
           day2 finished tested2
           (mkresponse 200 "" (Some (rates_document "USD" "2024-01-02")))
           answered2 (VRef 4%positive) received2 updated2
           (Ok day3) finished2);
    by_computation.
Defined.

(** ** The schema *)

Lemma elem_of_keys (fd : gmap key value) k :
  k ∈ (map_to_list fd).*1 ↔ k ∈ dom fd.
Proof.
  rewrite elem_of_dom, list_elem_of_fmap. split.
  - intros ([k' v] & -> & Hin). apply elem_of_map_to_list in Hin. by exists v.
  - intros [v Hv]. exists (k, v). split; [done|]. by apply elem_of_map_to_list.
Qed.

(** C8. When a payload with a rates mapping is processed, the schema gets
    one nullable-number field for each key of that mapping it did not have,
    and nothing else changes: every field it had is still there with the same
    descriptor, in this iteration, in all later ones and at the end of the
    run.  The update is complete before anything is written: the decisions
    on the schema message and on the record are taken in the state the
    update leaves, and a schema message of the iteration carries the updated
    schema.  The iteration is one of the run: the loop of [do_sync] goes
    through it, and what it writes is part of what the run has written when
    it ends. *)
Theorem schema_only_grows
    w n start_date access_key σ0 l σ σt resp σ1 payload σ2 pd rates fd r σ' :
  loop_head w n start_date access_key σ0 = Some (l, σ) →
  loop_test w l σ = (Ok true, σt) →
  request w (base_url ++ next_date l)%string [("apikey", access_key)] σt
  = (Ok resp, σ1) →
  response_json resp σ1 = (Ok payload, σ2) →
  dict_of (store σ2) payload = Some pd →
  pd !! KStr "rates" = Some rates →
  dict_of (store σ2) rates = Some fd →
  iteration w access_key l σt = (r, σ') →
  ∃ σ3,
    update_schema payload σ2 = (Ok (), σ3)
    ∧ (∀ k, properties σ3 !! k
            = match properties σ !! k with
              | Some v => Some v
              | None => if bool_decide (k ∈ dom fd)
                        then Some nullable_number else None
              end)
    ∧ properties σ ⊆ properties σ3
    ∧ properties σ' = properties σ3
    ∧ (∀ m l'' σ'', (n ≤ m)%nat →
         loop_head w m start_date access_key σ0 = Some (l'', σ'') →
         properties σ ⊆ properties σ'')
    ∧ output σ3 = output σ1
    ∧ (write_schema_if_changed l ≫= λ _,
       write_record_if_date_matches l payload ≫= λ _, advance l) σ3
      = (r, σ')
    ∧ (∀ e, e ∈ emitted σt σ' → is_schema e →
            e = MsgSchema "exchange_rate" (schema_of (properties σ3)) "date")
    ∧ (∀ fuel,
         while w (n + S fuel) access_key (initial_locals start_date) σ0
         = match r with
           | Ok l' => while w fuel access_key l' σ'
           | Raise e => Some (Raise e, σ')
           end)
    ∧ (∀ fuel o σf,
         do_sync w (n + S fuel) start_date access_key σ0 = Some (o, σf) →
         properties σ3 ⊆ properties σf
         ∧ ∃ later, emitted σ0 σf = emitted σ0 σt ++ emitted σt σ' ++ later).
Proof.
  intros Hhead Htest Hreq Hjson Hpd Hrates Hfd Hit.
  pose proof (update_schema_spec _ _ _ _ _ Hpd Hrates Hfd) as Hupd.
  destruct (iteration_output _ _ _ _ _ _ _ _ _ _ _ Hreq Hjson Hupd Hit)
    as (requests & records & Hq & Hrec & Hem & Hp' & Hp2).
  pose proof (keeps_loop_test _ _ _ _ _ Htest) as Hpt. unfold keeps in Hpt.
  assert (∀ k, properties
                 (set_properties
                    (add_fields (map_to_list fd).*1 (properties σ2)) σ2) !! k
               = match properties σ !! k with
                 | Some v => Some v
                 | None => if bool_decide (k ∈ dom fd)
                           then Some nullable_number else None
                 end) as Hlook.
  { intros k. simpl. rewrite add_fields_lookup, Hp2, Hpt.
    destruct (properties σ !! k); [done|].
    by rewrite (bool_decide_ext _ _ (elem_of_keys fd k)). }
  eexists. split; [done|]. split; [done|]. split_and!.
  - apply map_subseteq_spec. intros k v Hk. by rewrite Hlook, Hk.
  - done.
  - intros m l'' σ'' Hnm Hm. by eapply loop_head_grows.
  - destruct (allocates_response_json _ _ _ _ Hjson) as (_ & _ & Ho2 & _).
    simpl. done.
  - unfold iteration in Hit.
    erewrite bind_ok in Hit by done. erewrite bind_ok in Hit by done.
    unfold process in Hit. by erewrite bind_ok in Hit by done.
  - rewrite list.Forall_forall in Hq, Hrec.
    intros e. rewrite Hem, !elem_of_app. intros [Hin|[Hin|Hin]] He.
    + apply Hq in Hin. by destruct e.
    + case_bool_decide; [by apply list_elem_of_singleton in Hin
                        |by apply elem_of_nil in Hin].
    + apply Hrec in Hin. by destruct e.
  - intros fuel. by eapply while_through_iteration.
  - intros fuel o σf Hrun.
    destruct (run_through_iteration _ _ _ _ _ _ _ _ _ _ _ _ _
                Hhead Htest Hit Hrun) as [Hout Hgrow].
    split; [|done]. by rewrite <- Hp'.
Qed.

Lemma schema_only_grows_witness :
  ∃ σ3,
    update_schema (VRef 2%positive) received = (Ok (), σ3)
    ∧ (∀ k, properties σ3 !! k
            = match properties start !! k with
              | Some v => Some v
              | None =>
                  if bool_decide
                       (k ∈ dom ({[ KStr "EUR" := VNum (Q2Qc (9 # 10)) ]}
                                  : gmap key value))
                  then Some nullable_number else None
              end)
    ∧ properties start ⊆ properties σ3
    ∧ properties finished = properties σ3
    ∧ (∀ m l'' σ'', (0 ≤ m)%nat →
         loop_head steady m "2024-01-01" "k" start = Some (l'', σ'') →
         properties start ⊆ properties σ'')
    ∧ output σ3 = output answered
    ∧ (write_schema_if_changed day1 ≫= λ _,
       write_record_if_date_matches day1 (VRef 2%positive) ≫= λ _,
       advance day1) σ3
      = (Ok day2, finished)
    ∧ (∀ e, e ∈ emitted tested finished → is_schema e →
            e = MsgSchema "exchange_rate" (schema_of (properties σ3)) "date")
    ∧ (∀ fuel,
         while steady (0 + S fuel) "k" (initial_locals "2024-01-01") start
         = while steady fuel "k" day2 finished)
    ∧ (∀ fuel o σf,
         do_sync steady (0 + S fuel) "2024-01-01" "k" start = Some (o, σf) →
         properties σ3 ⊆ properties σf
         ∧ ∃ later,
             emitted start σf
             = emitted start tested ++ emitted tested finished ++ later).
Proof.
  apply (schema_only_grows steady 0 "2024-01-01" "k" start day1 start tested
           (mkresponse 200 "" (Some (rates_document "USD" "2024-01-01")))
           answered (VRef 2%positive) received
           {[ KStr "base" := VStr "USD"; KStr "date" := VStr "2024-01-01";
              KStr "rates" := VRef 1%positive ]}
           (VRef 1%positive) {[ KStr "EUR" := VNum (Q2Qc (9 # 10)) ]}
           (Ok day2) finished);
    by_computation.
Defined.

(** ** Exceptions of the loop body *)

Lemma raises_bind E {A B} (m : M A) (f : A → M B) :
  raises E m → (∀ a, raises E (f a)) → raises E (m ≫= f).
Proof.
  intros Hm Hf σ e σ' H.
  apply bind_inv in H as [(a & σ1 & _ & H)|(e' & H & [= ->])];
    [by eapply Hf|by eapply Hm].
Qed.

Lemma raises_ret E {A} (a : A) : raises E (mret a).
Proof. by intros σ e σ' [=]. Qed.

Lemma raises_raise (E : exn → Prop) {A} e : E e → raises E (@raise A e).
Proof. by intros He σ e' σ' [= <- _]. Qed.

Lemma raises_or_raise (E : exn → Prop) {A} e (o : option A) :
  E e → raises E (or_raise e o).
Proof. intros He. destruct o; [apply raises_ret|by apply raises_raise]. Qed.

Lemma raises_for_each E {A} (xs : list A) (body : A → M ()) :
  (∀ x, raises E (body x)) → raises E (for_each xs body).
Proof.
  intros Hb. induction xs as [|x xs IH]; simpl; [apply raises_ret|].
  apply raises_bind; auto.
Qed.

Lemma raises_subscript v k : raises key_or_plain (subscript v k).
Proof.
  unfold subscript. apply raises_bind; [by intros ??? [=]|]. intros h.
  case_match; [by apply raises_or_raise|by apply raises_raise].
Qed.

Lemma raises_iterate v : raises key_or_plain (iterate v).
Proof.
  unfold iterate. apply raises_bind; [by intros ??? [=]|]. intros h.
  repeat case_match. all: try apply raises_ret. all: by apply raises_raise.
Qed.

Lemma raises_add_rate v : raises key_or_plain (add_rate v).
Proof.
  unfold add_rate. apply raises_bind.
  { intros σ e σ' [= H _]. by destruct v; simplify_eq/=. }
  intros k. apply raises_bind; [by intros ??? [=]|]. intros p.
  case_match; [by intros ??? [=]|apply raises_ret].
Qed.

Lemma raises_update_schema payload :
  raises key_or_plain (update_schema payload).
Proof.
  unfold update_schema. apply raises_bind; [apply raises_subscript|].
  intros rates. apply raises_bind; [apply raises_iterate|].
  intros items. apply raises_for_each, raises_add_rate.
Qed.

Lemma handler_key_or_plain e : key_or_plain e → handler e = SysExit (-1).
Proof. by destruct e. Qed.

#[global] Instance quiet_refl : Reflexive quiet.
Proof. by intros σ. Qed.

#[global] Instance quiet_trans : Transitive quiet.
Proof. unfold quiet. intros σ1 σ2 σ3 [??] [??]. split; congruence. Qed.

Lemma quiet_update_schema payload : respects quiet (update_schema payload).
Proof.
  assert (∀ p, respects quiet (put_properties p)) as Hput
    by (by intros p σ r σ' [= _ <-]).
  unfold update_schema, subscript, iterate, add_rate. respects.
Qed.

(** An iteration whose payload lacks [rates] or [date] ends by an exception
    that one of the [except] clauses turns into [sys.exit(-1)]; it has
    written a schema message at most. *)
Lemma iteration_missing_key w access_key l σ resp σ1 members :
  request w (base_url ++ next_date l)%string [("apikey", access_key)] σ
  = (Ok resp, σ1) →
  body resp = Some (JObj members) →
  member "rates" members = None ∨ member "date" members = None →
  ∃ e σ',
    iteration w access_key l σ = (Raise e, σ')
    ∧ key_or_plain e
    ∧ ∃ evs, output σ' = output σ1 ++ evs ∧ Forall is_schema evs.
Proof.
  intros Hreq Hbody Hmiss.
  destruct (returns_load (JObj members) σ1) as (payload & σ2 & Hload).
  destruct (allocates_load _ _ _ _ Hload) as (_ & _ & Ho2 & _).
  assert (∀ r σ', process l payload σ2 = (r, σ') →
                  iteration w access_key l σ = (r, σ')) as Hit.
  { intros r σ' H. unfold iteration. erewrite bind_ok by done.
    erewrite bind_ok by (by rewrite (response_json_load _ _ _ Hbody)).
    done. }
  destruct Hmiss as [Hm|Hm].
  - destruct (load_missing_member _ _ _ _ _ Hm Hload)
      as (p & pd & -> & Hp & Hk).
    exists (KeyError (KStr "rates")), σ2. split_and!; [|done|].
    + apply Hit. unfold process, update_schema.
      erewrite bind_raise; [done|].
      erewrite bind_raise; [done|]. by eapply subscript_ref_missing.
    + exists []. by rewrite app_nil_r.
  - destruct (load_missing_member _ _ _ _ _ Hm Hload)
      as (p & pd & -> & Hp & Hk).
    destruct (update_schema (VRef p) σ2) as [[[]|e] σ3] eqn:Hu.
    + destruct (quiet_update_schema _ _ _ _ Hu) as [Hs3 Ho3].
      eexists (KeyError (KStr "date")), _. split_and!; [|done|].
      * apply Hit. rewrite (process_after_update _ _ _ _ Hu).
        erewrite bind_raise; [done|].
        unfold write_record_if_date_matches.
        erewrite bind_raise; [done|].
        eapply subscript_ref_missing; [|done].
        case_bool_decide; simpl; by rewrite Hs3.
      * case_bool_decide; simpl.
        -- eexists [_]. rewrite Ho3, Ho2. split; [done|]. by repeat constructor.
        -- exists []. by rewrite app_nil_r, Ho3, Ho2.
    + destruct (quiet_update_schema _ _ _ _ Hu) as [Hs3 Ho3].
      exists e, σ3. split_and!.
      * apply Hit. unfold process. by erewrite bind_raise.
      * by eapply raises_update_schema.
      * exists []. by rewrite app_nil_r, Ho3, Ho2.
Qed.

(** C9. If the payload of a day lacks [rates] or [date], the run ends
    there: whatever fuel is left, [do_sync] leaves the loop and the process
    exits with a status that is not 0; after the answer of that day no record
    and no state is written and no further request is sent. *)
Theorem missing_key_ends_the_run
    w n start_date access_key σ0 l σ σt resp σ1 members fuel :
  loop_head w n start_date access_key σ0 = Some (l, σ) →
  loop_test w l σ = (Ok true, σt) →
  request w (base_url ++ next_date l)%string [("apikey", access_key)] σt
  = (Ok resp, σ1) →
  body resp = Some (JObj members) →
  member "rates" members = None ∨ member "date" members = None →
  ∃ σ',
    do_sync w (n + S fuel) start_date access_key σ0 = Some (SysExit (-1), σ')
    ∧ exit_status (SysExit (-1)) ≠ 0
    ∧ Forall (λ e, ¬ is_record e ∧ ¬ is_state e ∧ ¬ is_request e)
        (emitted σ1 σ').
Proof.
  intros Hhead Htest Hreq Hbody Hmiss.
  destruct (iteration_missing_key _ _ _ _ _ _ _ Hreq Hbody Hmiss)
    as (e & σ' & Hit & He & evs & Hout & Hevs).
  exists σ'. split_and!.
  - unfold do_sync. rewrite (while_from_head _ _ _ _ _ _ _ _ Hhead).
    simpl. rewrite Htest, Hit. by rewrite (handler_key_or_plain _ He).
  - done.
  - rewrite (emitted_app _ _ _ Hout).
    eapply list.Forall_impl; [done|]. intros []; simpl; tauto.
Qed.

Lemma missing_key_ends_the_run_witness :
  let l := initial_locals "2024-01-02" in
  let σt := (loop_test truncated l start).2 in
  let σ1 := (request truncated (base_url ++ "2024-01-02")
               [("apikey", "k")] σt).2 in
  ∃ σ',
    do_sync truncated (0 + 1) "2024-01-02" "k" start = Some (SysExit (-1), σ')
    ∧ exit_status (SysExit (-1)) ≠ 0
    ∧ Forall (λ e, ¬ is_record e ∧ ¬ is_state e ∧ ¬ is_request e)
        (emitted σ1 σ').
Proof.
  intros l σt σ1.
  apply (missing_key_ends_the_run truncated 0 "2024-01-02" "k" start
           l start σt
           (mkresponse 200 ""
              (Some (JObj [("base", JStr "USD");
                           ("rates", JObj [("EUR", JNum (Q2Qc (9 # 10)))])])))
           σ1 [("base", JStr "USD");
               ("rates", JObj [("EUR", JNum (Q2Qc (9 # 10)))])] 0).
  - reflexivity.
  - by_computation.
  - by_computation.
  - reflexivity.
  - right. reflexivity.
Defined.

(** ** The end of a run *)

Lemma rank_lt a b :
  valid_date a = true → valid_date b = true →
  date_ltb a b = true → rank a < rank b.
Proof.
  intros Ha Hb H.
  pose proof (valid_date_bounds a Ha) as (_ & ? & ?).
  pose proof (valid_date_bounds b Hb) as (_ & ? & ?).
  pose proof (days_in_month_bounds (year a) (month a)).
  pose proof (days_in_month_bounds (year b) (month b)).
  unfold date_ltb in H. unfold rank.
  apply orb_true_iff in H as [H|H]; [apply Z.ltb_lt in H; lia|].
  apply andb_true_iff in H as [Hy H]. apply Z.eqb_eq in Hy.
  apply orb_true_iff in H as [H|H]; [apply Z.ltb_lt in H; nia|].
  apply andb_true_iff in H as [Hm H]. apply Z.eqb_eq in Hm.
  apply Z.ltb_lt in H. rewrite Hy, Hm. lia.
Qed.

Lemma rank_le a b :
  valid_date a = true → valid_date b = true →
  date_leb a b = true → rank a ≤ rank b.
Proof.
  intros Ha Hb H. unfold date_leb in H.
  apply orb_true_iff in H as [H|H].
  - pose proof (rank_lt a b Ha Hb H). lia.
  - apply bool_decide_eq_true in H as ->. lia.
Qed.

Lemma datetime_leb_date d now :
  datetime_leb (midnight d) now = true → date_leb d (dt_date now) = true.
Proof.
  unfold datetime_leb, date_leb. simpl. intros H.
  apply orb_true_iff in H as [H|H]; apply orb_true_iff; [by left|right].
  by apply andb_true_iff in H as [H _].
Qed.

Lemma loop_test_cases w l σ :
  (strptime (next_date l) = None
   ∧ loop_test w l σ = (Raise ValueError, σ))
  ∨ ∃ d, strptime (next_date l) = Some d
         ∧ loop_test w l σ
           = (Ok (datetime_leb (midnight d) (utcnow w (clock_reads σ))),
              count_clock_read σ).
Proof.
  unfold loop_test. destruct (strptime (next_date l)) as [d|]; [|by left].
  right. by exists d.
Qed.

Section Termination.
Context (w : world) (last : date) (access_key : string).
Hypothesis Hclock : clock_stops w last.

Lemma while_terminates k : ∀ l σ,
  (∀ d, strptime (next_date l) = Some d → rank last + 1 - rank d ≤ Z.of_nat k) →
  is_Some (while w (S k) access_key l σ).
Proof.
  destruct Hclock as [Hlast Hnow].
  induction k as [|k IH]; intros l σ Hk.
  - cbn [while].
    destruct (loop_test_cases w l σ) as [[_ ->]|(d & Hd & ->)]; [done|].
    destruct (datetime_leb _ _) eqn:Hle; [|done]. exfalso.
    apply datetime_leb_date in Hle. destruct (Hnow (clock_reads σ)) as [Hv Hl].
    pose proof (rank_le _ _ (strptime_valid _ _ Hd) Hv Hle).
    pose proof (rank_le _ _ Hv Hlast Hl). specialize (Hk d Hd). lia.
  - remember (S k) as k'. cbn [while]. subst k'.
    destruct (loop_test_cases w l σ) as [[_ ->]|(d & Hd & ->)]; [done|].
    destruct (datetime_leb _ _) eqn:Hle; [|done].
    destruct (iteration w access_key l (count_clock_read σ))
      as [[l'|e] σ2] eqn:Hit; [|done].
    apply IH. intros d2 Hd2.
    apply iteration_ok_inv in Hit as (d0 & d' & Hd0 & Hd' & ->).
    simpl in Hd2. assert (d0 = d) as -> by congruence.
    rewrite (strptime_next _ _ _ Hd Hd') in Hd2. injection Hd2 as <-.
    pose proof (strptime_valid _ _ Hd) as Hv.
    pose proof (rank_lt _ _ Hv (add_day_valid _ _ Hv Hd')
                  (add_day_later _ _ Hv Hd')).
    specialize (Hk d Hd). lia.
Qed.

Lemma do_sync_terminates start_date σ0 :
  ∃ fuel, is_Some (do_sync w fuel start_date access_key σ0).
Proof.
  set (k := match strptime start_date with
            | Some d => Z.to_nat (rank last + 1 - rank d)
            | None => 0%nat
            end).
  exists (S k). unfold do_sync.
  destruct (while_terminates k (initial_locals start_date) σ0)
    as [[[l|e] σ] ->]; [|done..].
  simpl. intros d Hd. unfold k. rewrite Hd. lia.
Qed.

End Termination.

Lemma exit_status_handler e : exit_status (handler e) ≠ 0.
Proof. destruct e as [| [url [r|]] | | | |]; by vm_compute. Qed.

Lemma handler_not_returned e : handler e ≠ Returned.
Proof. by destruct e as [| [url [r|]] | | | |]. Qed.

(** C1 (the claim fails here).  The service answers the second day's
    request with status 503 five times: the run ends with [sys.exit(-1)]
    and has written no state message at all. *)
Lemma fatal_run_writes_no_state :
  let run := do_sync outage 2 "2024-01-01" "k" start in
  ending run = Some (SysExit (-1))
  ∧ exit_status (SysExit (-1)) ≠ 0
  ∧ requests (messages run) = 6%nat
  ∧ state_messages (messages run) = [].
Proof. split_and!; [by_computation|done|by_computation..]. Qed.

(** C1, amended.  A run that ends by an error exits with a status that is
    not 0 and has written no state message; a run that ends normally has
    written exactly one, as its last message.  If the clock never shows a day
    after some day [last], the run does end. *)
Theorem state_written_on_return_only w start_date access_key σ0 :
  (∀ fuel o σ,
     do_sync w fuel start_date access_key σ0 = Some (o, σ) →
     match o with
     | Returned =>
         ∃ evs st, emitted σ0 σ = evs ++ [MsgState st]
                   ∧ Forall (λ e, ¬ is_state e) evs
     | _ => exit_status o ≠ 0 ∧ Forall (λ e, ¬ is_state e) (emitted σ0 σ)
     end)
  ∧ (∀ last, clock_stops w last →
       ∃ fuel, is_Some (do_sync w fuel start_date access_key σ0)).
Proof.
  split; [|intros last H; by eapply do_sync_terminates].
  intros fuel o σ H. unfold do_sync in H.
  destruct (while w fuel access_key (initial_locals start_date) σ0)
    as [[[l|e] σ1]|] eqn:Hw; [| |done].
  - injection H as <- <-.
    destruct (writes_while _ _ _ _ _ _ _ Hw) as (evs & Ho & Hevs).
    exists evs, (state l). split; [|done].
    apply emitted_app. simpl. by rewrite Ho, app_assoc.
  - injection H as <- <-.
    pose proof (writes_emitted _ _ _ (writes_while _ _ _ _ _ _ _ Hw)) as Hevs.
    pose proof (exit_status_handler e). pose proof (handler_not_returned e).
    by destruct (handler e).
Qed.

Lemma state_written_on_return_only_witness :
  (∃ evs st, emitted start
               (default start
                  (snd <$> do_sync steady 4 "2024-01-01" "k" start))
             = evs ++ [MsgState st]
             ∧ Forall (λ e, ¬ is_state e) evs)
  ∧ ∃ fuel, is_Some (do_sync steady fuel "2024-01-01" "k" start).
Proof.
  destruct (state_written_on_return_only steady "2024-01-01" "k" start)
    as [Hpartial Htotal].
  split.
  - apply (Hpartial 4%nat Returned). by_computation.
  - apply (Htotal (mkdate 2024 1 3)). split; [reflexivity|].
    intros n. split; reflexivity.
Defined.

(** ** The cursor and the state *)

Lemma state_day_state_of s : state_day (state_of s) = strptime s.
Proof. unfold state_day, state_of. by rewrite lookup_singleton_eq. Qed.

(** C2 (the claim fails here).  Start date 2024-01-01, current UTC date
    2024-01-03, every request answered with the rates of the requested day:
    after the first iteration the state names 2024-01-01 while the next day to
    fetch is 2024-01-02, and the run ends normally with the one state message
    [{start_date: "2024-01-03"}], not [{start_date: "2024-01-04"}]. *)
Lemma final_state_names_the_last_processed_day :
  (∃ l σ,
     loop_head steady 1 "2024-01-01" "k" start = Some (l, σ)
     ∧ state l = state_of "2024-01-01" ∧ next_date l = "2024-01-02")
  ∧ let run := do_sync steady 4 "2024-01-01" "k" start in
    ending run = Some Returned
    ∧ state_messages (messages run) = [state_of "2024-01-03"]
    ∧ state_of "2024-01-03" ≠ state_of "2024-01-04".
Proof.
  split.
  - exists day2, finished. split; [by_computation|]. split; reflexivity.
  - split; [by_computation|]. split; [by_computation|].
    unfold state_of. intros H.
    assert (({[ KStr "start_date" := VStr "2024-01-03" ]} : gmap key value)
            !! KStr "start_date"
            = ({[ KStr "start_date" := VStr "2024-01-04" ]} : gmap key value)
              !! KStr "start_date") as E by congruence.
    by rewrite !lookup_singleton_eq in E.
Qed.

(** C2, amended.  At the end of every iteration the state names the day that
    iteration has processed, the cursor as it was before it was advanced;
    the cursor itself is then the following day.  So the state is one day
    behind the next day to fetch, and from one iteration to the next it moves
    to the following day: it never decreases.  In the run above the final
    state is [{start_date: "2024-01-03"}]. *)
Theorem state_names_the_processed_day :
  (∀ w access_key l σ l' σ',
     iteration w access_key l σ = (Ok l', σ') →
     ∃ d d',
       state l' = state_of (next_date l)
       ∧ strptime (next_date l) = Some d
       ∧ state_day (state l') = Some d
       ∧ add_day d = Some d'
       ∧ next_date l' = strftime d'
       ∧ strptime (next_date l') = Some d'
       ∧ date_ltb d d' = true
       ∧ ∀ σ1 l'' σ'',
           iteration w access_key l' σ1 = (Ok l'', σ'') →
           state_day (state l'') = Some d')
  ∧ let run := do_sync steady 4 "2024-01-01" "k" start in
    ending run = Some Returned
    ∧ state_messages (messages run) = [state_of "2024-01-03"].
Proof.
  split.
  - intros w access_key l σ l' σ' H.
    apply iteration_ok_inv in H as (d & d' & Hd & Hd' & ->).
    exists d, d'. cbn [state next_date]. fold (state_of (next_date l)).
    pose proof (strptime_next _ _ _ Hd Hd') as Hnext.
    split_and!; try done.
    + eapply add_day_later; [|done]. by eapply strptime_valid.
    + intros σ1 l'' σ'' H2.
      apply iteration_ok_inv in H2 as (d2 & d2' & Hd2 & _ & ->).
      cbn [state next_date].
      fold (state_of (strftime d')). by rewrite state_day_state_of.
  - split; by_computation.
Qed.

Lemma state_names_the_processed_day_witness :
  ∃ d d',
    state day2 = state_of (next_date day1)
    ∧ strptime (next_date day1) = Some d
    ∧ state_day (state day2) = Some d
    ∧ add_day d = Some d'
    ∧ next_date day2 = strftime d'
    ∧ strptime (next_date day2) = Some d'
    ∧ date_ltb d d' = true
    ∧ ∀ σ1 l'' σ'',
        iteration steady "k" day2 σ1 = (Ok l'', σ'') →
        state_day (state l'') = Some d'.
Proof.
  destruct state_names_the_processed_day as [H _].
  apply (H steady "k" day1 tested day2 finished).
  by_computation.
Defined.

(** ** Record and schema *)

(** C3 (what the code does where the claim fails).  In the first iteration
    of the run above the payload has base [USD] and rates [{EUR: 0.9}]: the
    schema message declares [date], [base] and [EUR], and the record written
    right after it has the key [USD], which the schema does not declare. *)
Theorem base_currency_is_not_declared :
  let props := <[KStr "EUR" := nullable_number]> initial_properties in
  let record := record_of {[ KStr "EUR" := VNum (Q2Qc (9 # 10)) ]} "USD"
                  (mkdate 2024 1 1) in
  iteration steady "k" day1 tested = (Ok day2, finished)
  ∧ emitted tested finished
    = [HttpGet day1_url [("apikey", "k")];
       MsgSchema "exchange_rate" (schema_of props) "date";
       MsgRecord "exchange_rate" (VDict record)]
  ∧ dom props = {[ KStr "date"; KStr "base"; KStr "EUR" ]}
  ∧ record !! KStr "USD" = Some (VNum 1)
  ∧ KStr "USD" ∈ dom record
  ∧ KStr "USD" ∉ dom props.
Proof.
  split_and!; by_computation.
Qed.

(** * Further properties *)

(** ** The retry policy of [request] *)

Ltac fin :=
  split_and!;
  first [done | lia | intros; lia | simpl; lia | by rewrite ?app_nil_r
        | split; [done|intros; lia] ].

Section Attempts.
Context (w : world) (url : string) (headers : list (string * string)).

Lemma request_once_cases σ :
  let σ1 := write (HttpGet url headers) (count_request σ) in
  match http_get w (requests_sent σ) url with
  | NoResponse =>
      request_once w url headers σ
      = (Raise (RequestException (mkrx url None)), σ1)
  | Responds r =>
      if bool_decide (400 ≤ status_code r < 600)
      then request_once w url headers σ
           = (Raise (RequestException (mkrx url (Some r))), σ1)
      else request_once w url headers σ = (Ok r, σ1)
  end.
Proof.
  intros σ1. destruct (http_get w (requests_sent σ) url) as [r|] eqn:H.
  - case_bool_decide.
    + by apply request_once_error_status.
    + by apply request_once_success.
  - by apply request_once_no_response.
Qed.

Lemma on_exception_request_once m : ∀ σ x σ',
  on_exception w m (request_once w url headers) σ = (x, σ') →
  ∃ n, (n ≤ m)%nat
    ∧ (∀ i, (i < n)%nat →
         ∃ r, http_get w (requests_sent σ + i) url = Responds r
              ∧ 400 ≤ status_code r < 600
              ∧ transient (status_code r))
    ∧ last_attempt (http_get w (requests_sent σ + n) url) (m - n) x url
    ∧ requests_sent σ' = (requests_sent σ + S n)%nat
    ∧ draws σ' = (draws σ + n)%nat
    ∧ output σ' = output σ ++ HttpGet url headers
                    :: retries w url headers (draws σ) n
    ∧ store σ' = store σ ∧ properties σ' = properties σ
    ∧ clock_reads σ' = clock_reads σ.
Proof.
  induction m as [|m IH]; intros σ x σ' H.
  - exists 0%nat. rewrite Nat.add_0_r. cbn [on_exception] in H.
    pose proof (request_once_cases σ) as Hc. cbv zeta in Hc.
    unfold last_attempt.
    destruct (http_get w (requests_sent σ) url) as [r|].
    + case_bool_decide.
      * rewrite Hc in H. unfold giveup, mbind, M_bind, mret, M_ret, raise in H.
        simpl in H. destruct (negb _); simplify_eq;
          fin.
      * rewrite Hc in H. simplify_eq.
        fin.
    + rewrite Hc in H. unfold giveup, mbind, M_bind, raise in H. simpl in H.
      simplify_eq. fin.
  - cbn [on_exception] in H.
    pose proof (request_once_cases σ) as Hc. cbv zeta in Hc.
    destruct (http_get w (requests_sent σ) url) as [r|] eqn:Hg.
    + case_bool_decide as Hs.
      * rewrite Hc in H.
        destruct (decide (transient (status_code r))) as [Ht|Ht].
        -- erewrite bind_ok in H by (by eapply giveup_transient).
           unfold random_jitter, random_random, emit, mbind, M_bind, mret,
             M_ret in H. simpl in H.
           apply IH in H as (n & Hn & Hi & Hl & Hr & Hd & Ho & Hst & Hp & Hcl).
           simpl in *. exists (S n). split_and!.
           ++ lia.
           ++ intros [|i] Hlt.
              ** exists r. by rewrite Nat.add_0_r.
              ** destruct (Hi i) as (r' & Hr' & Ht'); [lia|].
                 exists r'. split; [|done].
                 by replace (requests_sent σ + S i)%nat
                   with (S (requests_sent σ + i)) by lia.
           ++ by replace (requests_sent σ + S n)%nat
                with (S (requests_sent σ + n)) by lia.
           ++ lia.
           ++ lia.
           ++ rewrite Ho. by rewrite <- !app_assoc.
           ++ done.
           ++ done.
           ++ done.
        -- erewrite bind_ok in H by (by eapply giveup_other).
           unfold raise in H. simpl in H. injection H as <- <-.
           exists 0%nat. rewrite Nat.add_0_r, Hg. unfold last_attempt.
           rewrite bool_decide_eq_true_2 by done.
           fin.
           Unshelve. all: done.
      * rewrite Hc in H. injection H as <- <-.
        exists 0%nat. rewrite Nat.add_0_r, Hg. unfold last_attempt.
        rewrite bool_decide_eq_false_2 by done.
        fin.
    + rewrite Hc in H. unfold giveup, mbind, M_bind, raise in H. simpl in H.
      injection H as <- <-. exists 0%nat. rewrite Nat.add_0_r, Hg.
      fin.
Qed.

(** What a call of [request] has done, whatever it gave. *)
Lemma request_inv σ x σ' :
  request w url headers σ = (x, σ') →
  ∃ n, (n ≤ max_tries - 1)%nat
    ∧ (∀ i, (i < n)%nat →
         ∃ r, http_get w (requests_sent σ + i) url = Responds r
              ∧ 400 ≤ status_code r < 600
              ∧ transient (status_code r))
    ∧ last_attempt (http_get w (requests_sent σ + n) url)
        (max_tries - 1 - n) x url
    ∧ requests_sent σ' = (requests_sent σ + S n)%nat
    ∧ draws σ' = (draws σ + n)%nat
    ∧ output σ' = output σ ++ HttpGet url headers
                    :: retries w url headers (draws σ) n
    ∧ store σ' = store σ ∧ properties σ' = properties σ
    ∧ clock_reads σ' = clock_reads σ.
Proof. exact (on_exception_request_once (max_tries - 1) σ x σ'). Qed.

End Attempts.

Lemma requests_retries w url headers d n :
  requests (retries w url headers d n) = n.
Proof.
  revert d. induction n as [|n IH]; intros d; [done|].
  unfold requests in *. simpl. by rewrite IH.
Qed.

(** X1. Whatever the service does, one call of [request] sends between one
    and five requests, all to the given URL with the given headers, pauses
    before every request but the first for 30 seconds plus the jitter drawn,
    and touches neither the store, nor the schema, nor the clock. *)
Theorem request_makes_at_most_five_attempts w url headers σ x σ' :
  request w url headers σ = (x, σ') →
  ∃ n, (n < 5)%nat
    ∧ emitted σ σ' = HttpGet url headers :: retries w url headers (draws σ) n
    ∧ requests (emitted σ σ') = S n
    ∧ requests_sent σ' = (requests_sent σ + S n)%nat
    ∧ draws σ' = (draws σ + n)%nat
    ∧ store σ' = store σ ∧ properties σ' = properties σ
    ∧ clock_reads σ' = clock_reads σ.
Proof.
  intros H. apply request_inv in H
    as (n & Hn & _ & _ & Hr & Hd & Ho & Hs & Hp & Hc).
  unfold max_tries in Hn. exists n.
  rewrite (emitted_app _ _ _ Ho). split_and!; try done; [simpl in Hn; lia|].
  unfold requests. simpl. f_equal. apply requests_retries.
Qed.

Lemma request_makes_at_most_five_attempts_witness :
  let url := day1_url in
  let headers := [("apikey", "k")] in
  let σ' := (request (refusing 503) url headers start).2 in
  ∃ n, (n < 5)%nat
    ∧ emitted start σ'
      = HttpGet url headers :: retries (refusing 503) url headers (draws start) n
    ∧ requests (emitted start σ') = S n
    ∧ requests_sent σ' = (requests_sent start + S n)%nat
    ∧ draws σ' = (draws start + n)%nat
    ∧ store σ' = store start ∧ properties σ' = properties start
    ∧ clock_reads σ' = clock_reads start.
Proof.
  intros url headers σ'.
  apply (request_makes_at_most_five_attempts (refusing 503) url headers start
           (request (refusing 503) url headers start).1).
  apply surjective_pairing.
Defined.

(** X2. What [request] gives is settled by its last attempt: it returns
    that attempt's response only if its status is outside 400-599; it raises
    the [HTTPError] of that response if the status is inside, and when that
    status is 429 or a server error all five attempts have been made; it
    raises an [AttributeError] if the attempt met no response. *)
Theorem request_returns_success_or_raises w url headers σ x σ' :
  request w url headers σ = (x, σ') →
  match x with
  | Ok r =>
      http_get w (requests_sent σ' - 1) url = Responds r
      ∧ ¬ 400 ≤ status_code r < 600
  | Raise e =>
      (http_get w (requests_sent σ' - 1) url = NoResponse
       ∧ e = AttributeError)
      ∨ ∃ r, http_get w (requests_sent σ' - 1) url = Responds r
             ∧ 400 ≤ status_code r < 600
             ∧ e = RequestException (mkrx url (Some r))
             ∧ (transient (status_code r) →
                requests_sent σ' = (requests_sent σ + 5)%nat)
  end.
Proof.
  intros H. apply request_inv in H
    as (n & Hn & _ & Hl & Hr & _).
  replace (requests_sent σ' - 1)%nat with (requests_sent σ + n)%nat by lia.
  unfold last_attempt in Hl. unfold max_tries in *.
  destruct (http_get w (requests_sent σ + n) url) as [r|].
  - case_bool_decide as Hs.
    + destruct Hl as [-> Ht]. right. exists r.
      split; [done|]. split; [done|]. split; [done|].
      intros T. specialize (Ht T). simpl in *. lia.
    + by subst x.
  - subst x. by left.
Qed.

Lemma request_returns_success_or_raises_witness :
  let url := day1_url in
  let headers := [("apikey", "k")] in
  let σ' := (request steady url headers start).2 in
  let r := mkresponse 200 EmptyString
             (Some (rates_document "USD" "2024-01-01")) in
  http_get steady (requests_sent σ' - 1) url = Responds r
  ∧ ¬ 400 ≤ status_code r < 600.
Proof.
  intros url headers σ' r.
  apply (request_returns_success_or_raises steady url headers start (Ok r) σ').
  reflexivity.
Defined.

(** X3. [request] tries again only after a 429 or a 5xx: every attempt but
    the last one has met a response with such a status. *)
Theorem request_retries_only_after_429_or_5xx w url headers σ x σ' :
  request w url headers σ = (x, σ') →
  ∀ i, (requests_sent σ ≤ i < requests_sent σ' - 1)%nat →
       ∃ r, http_get w i url = Responds r
            ∧ (status_code r = 429 ∨ 500 ≤ status_code r < 600).
Proof.
  intros H i Hi. apply request_inv in H
    as (n & _ & Hall & _ & Hr & _).
  destruct (Hall (i - requests_sent σ)%nat) as (r & Hg & Hs & Ht); [lia|].
  exists r. replace (requests_sent σ + (i - requests_sent σ))%nat with i in Hg
    by lia.
  split; [done|]. unfold transient in Ht. lia.
Qed.

Lemma request_retries_only_after_429_or_5xx_witness :
  ∃ r, http_get (refusing 503) 3 day1_url = Responds r
       ∧ (status_code r = 429 ∨ 500 ≤ status_code r < 600).
Proof.
  apply (request_retries_only_after_429_or_5xx (refusing 503) day1_url
           [("apikey", "k")] start
           (request (refusing 503) day1_url [("apikey", "k")] start).1
           (request (refusing 503) day1_url [("apikey", "k")] start).2).
  - apply surjective_pairing.
  - by_computation.
Defined.

Section Recovery.
Context (w : world) (url : string) (headers : list (string * string)).

Lemma on_exception_recovers r k : ∀ m σ,
  (k ≤ m)%nat →
  (∀ i, (i < k)%nat →
        ∃ ri, http_get w (requests_sent σ + i) url = Responds ri
              ∧ (status_code ri = 429 ∨ 500 ≤ status_code ri < 600)) →
  http_get w (requests_sent σ + k) url = Responds r →
  ¬ 400 ≤ status_code r < 600 →
  ∃ σ',
    on_exception w m (request_once w url headers) σ = (Ok r, σ')
    ∧ output σ' = output σ ++ HttpGet url headers
                    :: retries w url headers (draws σ) k.
Proof.
  induction k as [|k IH]; intros m σ Hm Hfail Hlast Hok.
  - rewrite Nat.add_0_r in Hlast. eexists. split.
    + destruct m; simpl; by rewrite (request_once_success _ _ _ _ _ Hlast Hok).
    + done.
  - destruct m as [|m]; [lia|].
    destruct (Hfail 0%nat) as (r0 & H0 & Hs0); [lia|].
    rewrite Nat.add_0_r in H0.
    assert (400 ≤ status_code r0 < 600) as Hb0 by lia.
    assert (transient (status_code r0)) as Ht0 by (unfold transient; lia).
    rewrite (on_exception_again w m _ σ _ r0 _
               (request_once_error_status w σ url headers r0 H0 Hb0)
               eq_refl Ht0).
    set (σ1 := write (HttpGet url headers) (count_request σ)).
    set (σ2 := write (Sleep (interval + random w (draws σ1))%Qc)
                 (count_draw σ1)).
    destruct (IH m σ2) as (σ' & Hrun & Hout); [lia| | |done|].
    + intros i Hi. destruct (Hfail (S i)) as (ri & Hri & Hsi); [lia|].
      exists ri. split; [|done]. simpl.
      by replace (S (requests_sent σ + i)) with (requests_sent σ + S i)%nat
        by lia.
    + simpl. by replace (S (requests_sent σ + k))
        with (requests_sent σ + S k)%nat by lia.
    + exists σ'. split; [done|]. rewrite Hout. simpl.
      by rewrite <- !app_assoc.
Qed.

End Recovery.

(** X4. If up to four attempts in a row meet a 429 or a 5xx and the next
    one a response that is no error, [request] returns that response, after a
    pause of 30 seconds plus jitter before each further attempt. *)
Theorem request_recovers_from_transient_failures w url headers σ r k :
  (k < 5)%nat →
  (∀ i, (i < k)%nat →
        ∃ ri, http_get w (requests_sent σ + i) url = Responds ri
              ∧ (status_code ri = 429 ∨ 500 ≤ status_code ri < 600)) →
  http_get w (requests_sent σ + k) url = Responds r →
  ¬ 400 ≤ status_code r < 600 →
  ∃ σ',
    request w url headers σ = (Ok r, σ')
    ∧ emitted σ σ' = HttpGet url headers :: retries w url headers (draws σ) k.
Proof.
  intros Hk Hfail Hlast Hok.
  destruct (on_exception_recovers w url headers r k (max_tries - 1) σ)
    as (σ' & Hrun & Hout); [unfold max_tries; lia|done..|].
  exists σ'. split; [done|]. by apply emitted_app.
Qed.

Lemma request_recovers_from_transient_failures_witness :
  let url := day1_url in
  let headers := [("apikey", "k")] in
  ∃ σ',
    request flaky url headers start
    = (Ok (mkresponse 200 "" (Some (rates_document "USD" "2024-01-01"))), σ')
    ∧ emitted start σ'
      = HttpGet url headers :: retries flaky url headers (draws start) 1.
Proof.
  intros url headers.
  apply (request_recovers_from_transient_failures flaky url headers start
           (mkresponse 200 "" (Some (rates_document "USD" "2024-01-01"))) 1).
  - lia.
  - intros [|i] Hi; [|lia]. eexists. split; [reflexivity|]. right. simpl. lia.
  - reflexivity.
  - simpl. lia.
Defined.

Lemma request_retries_five_times_witness :
  let url := day1_url in
  let headers := [("apikey", "k")] in
  ∃ σ',
    request (refusing 503) url headers start
    = (Raise (RequestException (mkrx url (Some (mkresponse 503 "" None)))), σ')
    ∧ emitted start σ'
      = [HttpGet url headers; Sleep (interval + 0)%Qc;
         HttpGet url headers; Sleep (interval + 0)%Qc;
         HttpGet url headers; Sleep (interval + 0)%Qc;
         HttpGet url headers; Sleep (interval + 0)%Qc;
         HttpGet url headers].
Proof.
  intros url headers.
  apply (request_retries_five_times (refusing 503) start url headers
           (λ _, mkresponse 503 "" None)).
  intros i Hi. split; [reflexivity|]. split; [simpl; lia|]. right. simpl. lia.
Defined.

Lemma request_gives_up_at_once_witness :
  let url := day1_url in
  let headers := [("apikey", "k")] in
  request (refusing 404) url headers start
  = (Raise (RequestException (mkrx url (Some (mkresponse 404 "" None)))),
     write (HttpGet url headers) (count_request start)).
Proof.
  intros url headers.
  apply (request_gives_up_at_once (refusing 404) start url headers
           (mkresponse 404 "" None)).
  - reflexivity.
  - simpl. lia.
  - simpl. lia.
Defined.

(** ** How a run ends *)

Lemma raises_request w url hs : raises handled (request w url hs).
Proof.
  intros σ e σ' H. apply request_inv in H as (n & _ & _ & Hl & _).
  unfold last_attempt in Hl.
  destruct (http_get _ _ _) as [r|].
  - case_bool_decide; [|done]. by destruct Hl as [[= ->] _].
  - by injection Hl as ->.
Qed.

(** X7. When the request for a day raises, after its retries if any, the
    run ends there with [sys.exit(-1)]: between the test of the loop and the
    exit only requests and pauses are written, no schema, record or state
    message, and the schema is as it was at the head of the loop. *)
Theorem failed_fetch_ends_the_run
    w n start_date access_key σ0 l σ σt e σ1 fuel :
  loop_head w n start_date access_key σ0 = Some (l, σ) →
  loop_test w l σ = (Ok true, σt) →
  request w (base_url ++ next_date l)%string [("apikey", access_key)] σt
  = (Raise e, σ1) →
  do_sync w (n + S fuel) start_date access_key σ0 = Some (SysExit (-1), σ1)
  ∧ Forall is_request (emitted σt σ1)
  ∧ properties σ1 = properties σ.
Proof.
  intros Hhead Htest Hreq. split_and!.
  - unfold do_sync. rewrite (while_from_head _ _ _ _ _ _ _ _ Hhead).
    simpl. rewrite Htest. unfold iteration. erewrite bind_raise by done.
    f_equal. f_equal. by eapply raises_request.
  - eapply writes_emitted, writes_request. done.
  - pose proof (keeps_request _ _ _ _ _ _ Hreq) as H1.
    pose proof (keeps_loop_test _ _ _ _ _ Htest) as H2.
    unfold keeps in *. congruence.
Qed.

Lemma failed_fetch_ends_the_run_witness :
  let σt := (loop_test outage day2 finished).2 in
  let url := (base_url ++ "2024-01-02")%string in
  let σ1 := (request outage url [("apikey", "k")] σt).2 in
  do_sync outage (1 + 1) "2024-01-01" "k" start = Some (SysExit (-1), σ1)
  ∧ Forall is_request (emitted σt σ1)
  ∧ properties σ1 = properties finished.
Proof.
  intros σt url σ1.
  apply (failed_fetch_ends_the_run outage 1 "2024-01-01" "k" start day2
           finished σt
           (RequestException (mkrx url (Some (mkresponse 503 "" None))))
           σ1 0).
  - by_computation.
  - by_computation.
  - by_computation.
Defined.

(** X8. A start date that [DATE_FORMAT] does not parse ends the run at the
    first test of the loop with [sys.exit(-1)]: no request is sent and nothing
    is written. *)
Theorem unparsable_start_date_ends_the_run w fuel start_date access_key σ :
  strptime start_date = None →
  do_sync w (S fuel) start_date access_key σ = Some (SysExit (-1), σ).
Proof.
  intros H. unfold do_sync. simpl.
  destruct (loop_test_cases w (initial_locals start_date) σ)
    as [[_ ->]|(d & Hd & _)]; [done|]. simpl in Hd. congruence.
Qed.

Lemma unparsable_start_date_ends_the_run_witness :
  do_sync steady 1 "01/02/2024" "k" start = Some (SysExit (-1), start).
Proof.
  apply (unparsable_start_date_ends_the_run steady 0 "01/02/2024" "k" start).
  reflexivity.
Defined.

(** X9. If the start date lies after the current UTC time, the run sends
    no request and returns normally; all it writes is the state message that
    names the start date as it was given. *)
Theorem start_date_after_today_fetches_nothing
    w fuel start_date access_key σ d :
  strptime start_date = Some d →
  datetime_leb (midnight d) (utcnow w (clock_reads σ)) = false →
  ∃ σ',
    do_sync w (S fuel) start_date access_key σ = Some (Returned, σ')
    ∧ emitted σ σ' = [MsgState (state_of start_date)]
    ∧ requests_sent σ' = requests_sent σ
    ∧ properties σ' = properties σ.
Proof.
  intros Hd Hnow. unfold do_sync. simpl.
  destruct (loop_test_cases w (initial_locals start_date) σ)
    as [[Hn _]|(d' & Hd' & ->)]; simpl in *; [congruence|].
  assert (d' = d) as -> by congruence. rewrite Hnow.
  eexists. split; [done|]. split; [|done]. by apply emitted_app.
Qed.

Lemma start_date_after_today_fetches_nothing_witness :
  ∃ σ',
    do_sync steady 1 "2024-01-04" "k" start = Some (Returned, σ')
    ∧ emitted start σ' = [MsgState (state_of "2024-01-04")]
    ∧ requests_sent σ' = requests_sent start
    ∧ properties σ' = properties start.
Proof.
  apply (start_date_after_today_fetches_nothing steady 0 "2024-01-04" "k" start
           (mkdate 2024 1 4)).
  - reflexivity.
  - reflexivity.
Defined.

(** ** The days of a run *)

Lemma date_leb_false a b : date_leb a b = false → date_ltb b a = true.
Proof.
  unfold date_leb, date_ltb. destruct a as [ya ma da], b as [yb mb db].
  cbn [year month day]. intros H. apply orb_false_iff in H as [H1 H2].
  apply bool_decide_eq_false in H2.
  destruct (Z.ltb_spec yb ya); [done|]. cbn [orb].
  destruct (Z.ltb_spec ya yb); [done|]. cbn [orb] in H1.
  assert (ya = yb) as -> by lia. rewrite Z.eqb_refl in *. cbn [andb] in *.
  destruct (Z.ltb_spec mb ma); [done|]. cbn [orb].
  destruct (Z.ltb_spec ma mb); [done|]. cbn [orb] in H1.
  assert (ma = mb) as -> by lia. rewrite Z.eqb_refl in *. cbn [andb] in *.
  destruct (Z.ltb_spec db da); [done|].
  destruct (Z.ltb_spec da db); [done|].
  assert (da = db) as -> by lia. done.
Qed.

Lemma rank_inj a b :
  valid_date a = true → valid_date b = true → rank a = rank b → a = b.
Proof.
  intros Ha Hb H.
  pose proof (valid_date_bounds a Ha) as (_ & ? & ?).
  pose proof (valid_date_bounds b Hb) as (_ & ? & ?).
  pose proof (days_in_month_bounds (year a) (month a)).
  pose proof (days_in_month_bounds (year b) (month b)).
  unfold rank in H. destruct a as [ya ma da], b as [yb mb db].
  cbn [year month day] in *.
  assert (ya = yb) by lia. assert (ma = mb) by lia. assert (da = db) by lia.
  congruence.
Qed.

(** No day lies between a day and the following one. *)
Lemma add_day_tight d d' t :
  valid_date d = true → valid_date t = true → add_day d = Some d' →
  date_leb d t = true → date_leb d' t = false → t = d.
Proof.
  intros Hd Ht Hadd Hle Hgt.
  pose proof (add_day_valid _ _ Hd Hadd) as Hd'.
  pose proof (rank_le _ _ Hd Ht Hle) as R1.
  pose proof (rank_lt _ _ Ht Hd' (date_leb_false _ _ Hgt)) as R2.
  pose proof (valid_date_bounds d Hd) as (? & ? & ?).
  pose proof (valid_date_bounds t Ht) as (? & ? & ?).
  pose proof (days_in_month_bounds (year d) (month d)).
  pose proof (days_in_month_bounds (year t) (month t)).
  unfold rank in *.
  destruct (add_day_cases _ _ Hadd) as [(?&->)|[(?&?&->)|(?&?&?&->)]];
    cbn [year month day] in *.
  - apply rank_inj; [done..|]. unfold rank. lia.
  - assert (year t = year d) by lia. assert (month t = month d) by lia.
    destruct d, t; cbn [year month day] in *; subst.
    f_equal. lia.
  - assert (year t = year d) by lia. assert (month t = month d) by lia.
    destruct d, t; cbn [year month day] in *; subst.
    f_equal. lia.
Qed.

Lemma days_later_valid n : ∀ d d',
  valid_date d = true → days_later n d = Some d' → valid_date d' = true.
Proof.
  induction n as [|n IH]; intros d d' Hv H; simpl in H; [by simplify_eq|].
  destruct (days_later n d) as [d1|] eqn:E; [|done]. simpl in H.
  eapply add_day_valid; [|done]. by eapply IH.
Qed.

(** X11. After [n] complete iterations the cursor is the [n]-th day after
    the start date: the days are visited one after the other, none is left
    out and none comes twice; from the first iteration on the cursor is
    written zero padded. *)
Theorem cursor_visits_consecutive_days
    w n start_date access_key σ0 l σ d0 :
  strptime start_date = Some d0 →
  loop_head w n start_date access_key σ0 = Some (l, σ) →
  ∃ d, days_later n d0 = Some d
       ∧ strptime (next_date l) = Some d
       ∧ ((0 < n)%nat → next_date l = strftime d).
Proof.
  intros H0. revert l σ. induction n as [|n IH]; intros l σ H.
  - injection H as <- <-. exists d0. split_and!; [done|done|lia].
  - apply loop_head_S in H as (l1 & σ1 & σ2 & Hh & Ht & Hi).
    destruct (IH _ _ Hh) as (d & Hd & Hs & _).
    apply iteration_ok_inv in Hi as (d1 & d' & Hd1 & Hd' & ->).
    assert (d1 = d) as -> by congruence.
    exists d'. cbn [next_date days_later]. rewrite Hd. simpl.
    split_and!; [done|by eapply strptime_next|done].
Qed.

Lemma cursor_visits_consecutive_days_witness :
  ∃ d, days_later 1 (mkdate 2024 1 1) = Some d
       ∧ strptime (next_date day2) = Some d
       ∧ ((0 < 1)%nat → next_date day2 = strftime d).
Proof.
  apply (cursor_visits_consecutive_days steady 1 "2024-01-01" "k" start
           day2 finished (mkdate 2024 1 1)).
  - reflexivity.
  - by_computation.
Defined.

(** ** The day the final state names *)

Lemma loop_test_today w today l σ b σ1 :
  clock_shows w today →
  loop_test w l σ = (Ok b, σ1) →
  ∃ d, strptime (next_date l) = Some d ∧ b = date_leb d today.
Proof.
  intros [_ Hclock] H.
  destruct (loop_test_cases w l σ) as [[_ E]|(d & Hd & E)];
    rewrite E in H; [done|].
  injection H as <- _. exists d. split; [done|].
  destruct (Hclock (clock_reads σ)) as [Hday Hmicros].
  unfold datetime_leb, date_leb. simpl. rewrite Hday. f_equal.
  replace (0 <=? dt_micros (utcnow w (clock_reads σ))) with true
    by (symmetry; lia).
  by rewrite andb_true_r.
Qed.

Lemma while_today w today access_key fuel : ∀ l σ l' σ',
  clock_shows w today →
  while w fuel access_key l σ = Some (Ok l', σ') →
  ∃ d, strptime (next_date l) = Some d
       ∧ (date_leb d today = false → l' = l)
       ∧ (date_leb d today = true → state_day (state l') = Some today).
Proof.
  induction fuel as [|fuel IH]; intros l σ l' σ' Hclock H; [done|].
  simpl in H.
  destruct (loop_test w l σ) as [[b|e] σ1] eqn:Ht; [|done].
  destruct (loop_test_today _ _ _ _ _ _ Hclock Ht) as (d & Hd & ->).
  exists d. split; [done|].
  destruct (date_leb d today) eqn:Hle.
  - split; [done|]. intros _.
    destruct (iteration w access_key l σ1) as [[l1|e] σ2] eqn:Hi; [|done].
    destruct (IH _ _ _ _ Hclock H) as (d1 & Hd1 & Hstop & Hgo).
    apply iteration_ok_inv in Hi as (d0 & d' & Hd0 & Hd' & ->).
    assert (d0 = d) as -> by congruence.
    cbn [next_date] in *.
    rewrite (strptime_next _ _ _ Hd Hd') in Hd1. injection Hd1 as <-.
    destruct (date_leb d' today) eqn:Hle'; [by apply Hgo|].
    rewrite (Hstop eq_refl). cbn [state].
    fold (state_of (next_date l)). rewrite state_day_state_of, Hd.
    f_equal. symmetry. destruct Hclock as [Hv _].
    eapply add_day_tight; [|done..]. by eapply strptime_valid.
  - injection H as <- _. split; [done|]. done.
Qed.

(** X10. If it is the same UTC day during the whole run and the start date
    is not after that day, a run that returns normally ends with a state
    message that names that day. *)
Theorem final_state_names_today
    w today fuel start_date access_key σ0 σ d0 :
  clock_shows w today →
  strptime start_date = Some d0 →
  date_leb d0 today = true →
  do_sync w fuel start_date access_key σ0 = Some (Returned, σ) →
  ∃ st, list.last (output σ) = Some (MsgState st) ∧ state_day st = Some today.
Proof.
  intros Hclock Hd0 Hle H. unfold do_sync in H.
  destruct (while w fuel access_key (initial_locals start_date) σ0)
    as [[[l|e] σ1]|] eqn:Hw; [| |done].
  - injection H as <-. exists (state l). split; [apply last_snoc|].
    destruct (while_today _ _ _ _ _ _ _ _ Hclock Hw) as (d & Hd & _ & Hgo).
    cbn [next_date initial_locals] in Hd.
    assert (d = d0) as -> by congruence. by apply Hgo.
  - injection H as H _. by destruct (handler_not_returned e).
Qed.

Lemma final_state_names_today_witness :
  let σ := default start (snd <$> do_sync steady 4 "2024-01-01" "k" start) in
  ∃ st, list.last (output σ) = Some (MsgState st)
        ∧ state_day st = Some (mkdate 2024 1 3).
Proof.
  intros σ.
  apply (final_state_names_today steady (mkdate 2024 1 3) 4 "2024-01-01" "k"
           start σ (mkdate 2024 1 1)).
  - split; [reflexivity|]. intros n. split; [reflexivity|]. simpl. lia.
  - reflexivity.
  - reflexivity.
  - by_computation.
Defined.

(** ** Exceptions of a run *)

Lemma raises_lift_to_key v : raises key_or_plain (lift (to_key v)).
Proof. intros σ e σ' [= H _]. by destruct v; simplify_eq/=. Qed.

Lemma raises_get_store E : raises E get_store.
Proof. by intros ??? [=]. Qed.

Lemma raises_get_properties E : raises E get_properties.
Proof. by intros ??? [=]. Qed.

Lemma raises_emit E ev : raises E (emit ev).
Proof. by intros ??? [=]. Qed.

Lemma raises_put_store E h : raises E (put_store h).
Proof. by intros ??? [=]. Qed.

Ltac raises :=
  repeat first
    [ apply raises_subscript | apply raises_lift_to_key
    | apply raises_get_store | apply raises_get_properties
    | apply raises_emit | apply raises_put_store
    | apply raises_bind | apply raises_ret | by apply raises_raise
    | by apply raises_or_raise | progress intros | case_match ].

Lemma raises_store_item t k v : raises key_or_plain (store_item t k v).
Proof. unfold store_item. raises. Qed.

Lemma raises_time_strptime v : raises key_or_plain (time_strptime v).
Proof. unfold time_strptime. raises. Qed.

Lemma raises_parse_response r : raises key_or_plain (parse_response r).
Proof.
  unfold parse_response.
  repeat first [ apply raises_subscript | apply raises_store_item
               | apply raises_time_strptime | apply raises_bind
               | apply raises_ret | progress intros ].
Qed.

Lemma raises_process l payload : raises key_or_plain (process l payload).
Proof.
  unfold process. apply raises_bind; [apply raises_update_schema|]. intros _.
  apply raises_bind.
  { unfold write_schema_if_changed, schema. raises. }
  intros _. apply raises_bind.
  { unfold write_record_if_date_matches. apply raises_bind;
      [apply raises_subscript|]. intros date. case_match; [|apply raises_ret].
    apply raises_bind; [apply raises_parse_response|]. raises. }
  intros _. unfold advance, schema. raises.
Qed.

Lemma request_ok_response w url hs σ r σ' :
  request w url hs σ = (Ok r, σ') →
  ∃ n, http_get w n url = Responds r.
Proof.
  intros H. apply request_inv in H as (n & _ & _ & Hl & _).
  exists (requests_sent σ + n)%nat. unfold last_attempt in Hl.
  destruct (http_get _ _ _) as [r'|]; [|done].
  case_bool_decide; [by destruct Hl|congruence].
Qed.

Lemma raises_iteration w access_key l :
  answers_in_json w → raises handled (iteration w access_key l).
Proof.
  intros Hjson σ e σ' H. unfold iteration in H.
  apply bind_inv in H as [(resp & σ1 & Hreq & H)|(e' & H & [= ->])];
    [|by eapply raises_request].
  apply request_ok_response in Hreq as (n & Hn).
  destruct (Hjson _ _ _ Hn) as [j Hj].
  apply bind_inv in H as [(payload & σ2 & _ & H)|(e' & H & [= ->])].
  - by eapply handler_key_or_plain, raises_process.
  - rewrite (response_json_load _ _ _ Hj) in H.
    destruct (returns_load j σ1) as (a & σ2 & E). congruence.
Qed.

Lemma raises_while w access_key fuel : ∀ l σ e σ',
  answers_in_json w →
  while w fuel access_key l σ = Some (Raise e, σ') → handled e.
Proof.
  induction fuel as [|fuel IH]; intros l σ e σ' Hjson H; [done|].
  simpl in H.
  destruct (loop_test_cases w l σ) as [[_ E]|(d & _ & E)]; rewrite E in H.
  - by injection H as <- _.
  - destruct (datetime_leb _ _); [|done].
    destruct (iteration w access_key l _) as [[l1|e1] σ2] eqn:Hi.
    + by eapply IH.
    + injection H as <- _. by eapply raises_iteration.
Qed.

(** X12. No exception leaves [do_sync]: when every response carries a
    JSON document, a run either returns normally or ends with [sys.exit(-1)],
    exit status 255.  In particular the second [except] clause never meets
    an exception without response. *)
Theorem every_error_is_a_fatal_exit w fuel start_date access_key σ0 o σ :
  answers_in_json w →
  do_sync w fuel start_date access_key σ0 = Some (o, σ) →
  o = Returned ∨ (o = SysExit (-1) ∧ exit_status o = 255).
Proof.
  intros Hjson H. unfold do_sync in H.
  destruct (while w fuel access_key (initial_locals start_date) σ0)
    as [[[l|e] σ1]|] eqn:Hw; [| |done].
  - injection H as <- _. by left.
  - injection H as <- _. right.
    by rewrite (raises_while _ _ _ _ _ _ _ Hjson Hw).
Qed.

Lemma every_error_is_a_fatal_exit_witness :
  SysExit (-1) = Returned
  ∨ (SysExit (-1) = SysExit (-1) ∧ exit_status (SysExit (-1)) = 255).
Proof.
  apply (every_error_is_a_fatal_exit truncated 1 "2024-01-02" "k" start
           (SysExit (-1))
           (default start (snd <$> do_sync truncated 1 "2024-01-02" "k" start))).
  - intros n url r. simpl. case_bool_decide; intros [= <-]; by eexists.
  - by_computation.
Defined.

(** ** Where the requests go *)

Lemma writes_request_to w P url hs :
  P (HttpGet url hs) → (∀ s, P (Sleep s)) →
  respects (writes P) (request w url hs).
Proof.
  intros Hget Hsleep.
  unfold request. apply respects_on_exception; try apply _.
  - apply respects_request_once; try apply _. by apply writes_requests_get.
  - intros; apply respects_giveup; apply _.
  - apply writes_random.
  - intros. by apply writes_emit.
Qed.

Lemma writes_iteration_to w access_key l d :
  strptime (next_date l) = Some d →
  respects (writes (to_service access_key)) (iteration w access_key l).
Proof.
  intros Hd. unfold iteration, process.
  apply respects_bind; try apply _.
  { apply writes_request_to; [|done]. split; [done|]. by exists (next_date l), d. }
  intros resp. apply respects_bind; try apply _.
  { eapply respects_weaken; [|apply allocates_response_json].
    intros ???. by apply allocates_writes. }
  intros payload. apply respects_bind; try apply _.
  { apply writes_update_schema. }
  intros _. apply respects_bind; try apply _.
  { eapply respects_weaken; [|apply writes_write_schema].
    intros ??. apply writes_mono. by intros []. }
  intros _. apply respects_bind; try apply _.
  { eapply respects_weaken; [|apply writes_write_record].
    intros ??. apply writes_mono. by intros []. }
  intros _. apply writes_advance.
Qed.

Lemma writes_while_to w access_key fuel : ∀ l σ r σ',
  while w fuel access_key l σ = Some (r, σ') →
  writes (to_service access_key) σ σ'.
Proof.
  induction fuel as [|fuel IH]; intros l σ r σ' H; [done|].
  simpl in H.
  destruct (loop_test w l σ) as [[[]|e] σ1] eqn:Ht.
  - destruct (loop_test_cases w l σ) as [[_ E]|(d & Hd & _)];
      [congruence|].
    destruct (iteration w access_key l σ1) as [[l2|e] σ2] eqn:Hi.
    + etrans; [by eapply (writes_loop_test w)|].
      etrans; [by eapply writes_iteration_to|by eapply IH].
    + injection H as <- <-.
      etrans; [by eapply (writes_loop_test w)|by eapply writes_iteration_to].
  - injection H as <- <-. by eapply (writes_loop_test w).
  - injection H as <- <-. by eapply (writes_loop_test w).
Qed.

(** X13. Every request of a run goes to [base_url] followed by a text
    that [DATE_FORMAT] parses, and the headers passed to it are the [apikey]
    header with the access key, and no other. *)
Theorem requests_go_to_the_service w fuel start_date access_key σ0 o σ :
  do_sync w fuel start_date access_key σ0 = Some (o, σ) →
  Forall (to_service access_key) (emitted σ0 σ).
Proof.
  intros H. unfold do_sync in H. apply writes_emitted.
  destruct (while w fuel access_key (initial_locals start_date) σ0)
    as [[[l|e] σ1]|] eqn:Hw; [| |done].
  - injection H as _ <-. etrans; [by eapply writes_while_to|].
    exists [MsgState (state l)]. split; [done|]. by repeat constructor.
  - injection H as _ <-. by eapply writes_while_to.
Qed.

Lemma requests_go_to_the_service_witness :
  Forall (to_service "k")
    (emitted start
       (default start (snd <$> do_sync steady 4 "2024-01-01" "k" start))).
Proof.
  apply (requests_go_to_the_service steady 4 "2024-01-01" "k" start Returned).
  by_computation.
Defined.

(** ** Record, schema and payload *)

(** X14. In an iteration that writes a record for a payload of the
    expected form, every field of the record other than the one named by the
    base currency code is declared in the schema as it stands at the end of
    the iteration, provided the schema still has its two initial fields; if
    the rates list the base currency too, every field is declared. *)
Theorem record_fields_are_declared_except_base
    w access_key l σ resp σ1 members rs b D D' :
  request w (base_url ++ next_date l)%string [("apikey", access_key)] σ
  = (Ok resp, σ1) →
  body resp = Some (JObj members) →
  member "rates" members = Some (JObj rs) →
  member "base" members = Some (JStr b) →
  member "date" members = Some (JStr (next_date l)) →
  strptime (next_date l) = Some D →
  add_day D = Some D' →
  initial_properties ⊆ properties σ →
  ∃ l' σ' record,
    iteration w access_key l σ = (Ok l', σ')
    ∧ list.last (output σ') = Some (MsgRecord "exchange_rate" (VDict record))
    ∧ (∀ k, k ∈ dom record → k ≠ KStr b → k ∈ dom (properties σ'))
    ∧ (is_Some (member b rs) → dom record ⊆ dom (properties σ')).
Proof.
  intros Hreq Hbody Hr Hb Hs HD HD' Hinit.
  destruct (iteration_rates_document _ _ _ _ _ _ _ _ _ _ _ _
              Hreq Hbody Hr Hb Hs HD HD')
    as (fd & σ' & Hfd & Hit & Hprops & Hout).
  cbv zeta in *.
  rewrite (bool_decide_eq_true_2 (next_date l = next_date l)) in Hout by done.
  eexists _, σ', (record_of fd b D). split; [done|]. split.
  { rewrite Hout, !app_assoc. apply last_snoc. }
  assert (∀ k, k ∈ dom fd → k ∈ dom (properties σ')) as Hrates.
  { intros k Hk. rewrite Hprops. apply elem_of_dom.
    rewrite add_fields_lookup. destruct (properties σ !! k); [done|].
    by rewrite bool_decide_eq_true_2 by (by apply elem_of_keys). }
  assert (∀ k, k ∈ dom initial_properties → k ∈ dom (properties σ')) as Hfix.
  { intros k [v Hk]%elem_of_dom. rewrite Hprops. apply elem_of_dom. exists v.
    eapply lookup_weaken; [|apply add_fields_grows].
    by eapply lookup_weaken. }
  assert (∀ k, k ∈ dom (record_of fd b D) →
               k = KStr b ∨ k ∈ dom (properties σ')) as Hall.
  { intros k. unfold record_of. rewrite !dom_insert, !elem_of_union,
      !elem_of_singleton.
    intros [->|[->|[->|Hk]]]; [right|right|by left|right; by apply Hrates].
    - apply Hfix, elem_of_dom. unfold initial_properties.
      rewrite lookup_insert_eq. by eexists.
    - apply Hfix, elem_of_dom. unfold initial_properties.
      rewrite lookup_insert_ne by done. rewrite lookup_singleton_eq.
      by eexists. }
  split.
  - intros k Hk Hne. by destruct (Hall k Hk).
  - intros Hbase k Hk. destruct (Hall k Hk) as [->|]; [|done].
    apply Hrates, elem_of_dom, Hfd. by exists b.
Qed.

Lemma record_fields_are_declared_except_base_witness :
  ∃ l' σ' record,
    iteration steady "k" day1 tested = (Ok l', σ')
    ∧ list.last (output σ') = Some (MsgRecord "exchange_rate" (VDict record))
    ∧ (∀ k, k ∈ dom record → k ≠ KStr "USD" → k ∈ dom (properties σ'))
    ∧ (is_Some (member "USD" [("EUR", JNum (Q2Qc (9 # 10)))]) →
       dom record ⊆ dom (properties σ')).
Proof.
  apply (record_fields_are_declared_except_base steady "k" day1 tested
           (mkresponse 200 "" (Some (rates_document "USD" "2024-01-01")))
           answered
           [("base", JStr "USD"); ("date", JStr "2024-01-01");
            ("rates", JObj [("EUR", JNum (Q2Qc (9 # 10)))])]
           [("EUR", JNum (Q2Qc (9 # 10)))] "USD"
           (mkdate 2024 1 1) (mkdate 2024 1 2)).
  - by_computation.
  - reflexivity.
  - reflexivity.
  - reflexivity.
  - reflexivity.
  - reflexivity.
  - reflexivity.
  - reflexivity.
Defined.

(** X15. What the [for] loop of lines 74-76 leaves in the schema depends
    on which keys it visits only, not on their order or on repetitions. *)
Theorem schema_update_ignores_order ks ks' σ :
  (∀ k, k ∈ ks ↔ k ∈ ks') →
  for_each (of_key <$> ks) add_rate σ = for_each (of_key <$> ks') add_rate σ.
Proof.
  intros H. rewrite !for_each_add_rate. do 2 f_equal.
  apply map_eq. intros k. rewrite !add_fields_lookup.
  destruct (properties σ !! k); [done|].
  by rewrite (bool_decide_ext _ _ (H k)).
Qed.

Lemma schema_update_ignores_order_witness :
  for_each (of_key <$> [KStr "EUR"; KStr "GBP"; KStr "EUR"]) add_rate start
  = for_each (of_key <$> [KStr "GBP"; KStr "EUR"]) add_rate start.
Proof.
  apply (schema_update_ignores_order [KStr "EUR"; KStr "GBP"; KStr "EUR"]
           [KStr "GBP"; KStr "EUR"] start).
  intros k. rewrite !elem_of_cons, !elem_of_nil. tauto.
Defined.

(** X16. On a payload without [rates], or with [rates] but without [base],
    [parse_response] raises the [KeyError] of that key and has changed
    nothing. *)
Theorem parse_response_missing_key_changes_nothing σ p pd k :
  store σ !! p = Some pd →
  (k = "rates" ∧ pd !! KStr "rates" = None)
  ∨ (k = "base" ∧ is_Some (pd !! KStr "rates") ∧ pd !! KStr "base" = None) →
  parse_response (VRef p) σ = (Raise (KeyError (KStr k)), σ).
Proof.
  intros Hp [[-> Hk]|(-> & [rates Hr] & Hk)]; unfold parse_response.
  - erewrite bind_raise; [done|]. by eapply subscript_ref_missing.
  - erewrite bind_ok by (by eapply subscript_ref).
    erewrite bind_raise; [done|]. by eapply subscript_ref_missing.
Qed.

Lemma parse_response_missing_key_changes_nothing_witness :
  parse_response (VRef 1%positive)
    (load (JObj [("date", JStr "2024-01-01")]) start).2
  = (Raise (KeyError (KStr "rates")),
     (load (JObj [("date", JStr "2024-01-01")]) start).2).
Proof.
  apply (parse_response_missing_key_changes_nothing _ 1%positive
           {[ KStr "date" := VStr "2024-01-01" ]} "rates").
  - by_computation.
  - left. split; [reflexivity|]. by_computation.
Defined.

(** X17. On a payload whose [date] is missing or is a text that
    [DATE_FORMAT] does not parse, [parse_response] raises ([KeyError] or
    [ValueError]) after it has updated the rates object: the base currency
    entry and the [base] entry are there, the [date] entry is not written. *)
Theorem parse_response_bad_date_leaves_partial_update
    σ p pd f fd bv kb e :
  store σ !! p = Some pd →
  pd !! KStr "rates" = Some (VRef f) →
  store σ !! f = Some fd →
  p ≠ f →
  pd !! KStr "base" = Some bv →
  to_key bv = Ok kb →
  (pd !! KStr "date" = None ∧ e = KeyError (KStr "date"))
  ∨ (∃ s, pd !! KStr "date" = Some (VStr s) ∧ strptime s = None
          ∧ e = ValueError) →
  parse_response (VRef p) σ
  = (Raise e,
     set_store (<[f := <[KStr "base" := bv]> (<[kb := VNum 1]> fd)]> (store σ))
       σ).
Proof.
  intros Hp Hr Hf Hpf Hb Hk Hdate. unfold parse_response.
  assert (f ≠ p) as Hfp by congruence.
  erewrite bind_ok by (by eapply subscript_ref).
  erewrite bind_ok by (by eapply subscript_ref).
  erewrite bind_ok by (by eapply store_item_ref).
  erewrite bind_ok
    by (eapply subscript_ref; [simpl; by rewrite lookup_insert_ne|done]).
  erewrite bind_ok
    by (eapply store_item_ref; [simpl; rewrite lookup_insert_eq; reflexivity
                               |done]).
  assert (∀ h h' : heap, set_store h (set_store h' σ) = set_store h σ) as E
    by done.
  destruct Hdate as [[Hd ->]|(s & Hd & Hs & ->)].
  - erewrite bind_raise.
    2:{ eapply subscript_ref_missing; [|done].
        simpl. by rewrite !lookup_insert_ne. }
    simpl. by rewrite E, insert_insert_eq.
  - erewrite bind_ok
      by (eapply subscript_ref; [simpl; by rewrite !lookup_insert_ne|done]).
    erewrite bind_raise.
    2:{ unfold time_strptime. rewrite Hs. reflexivity. }
    simpl. by rewrite E, insert_insert_eq.
Qed.

Lemma parse_response_bad_date_leaves_partial_update_witness :
  parse_response (VRef 2%positive) undated
  = (Raise (KeyError (KStr "date")),
     set_store
       (<[1%positive :=
            <[KStr "base" := VStr "USD"]>
              (<[KStr "USD" := VNum 1]>
                 {[ KStr "EUR" := VNum (Q2Qc (9 # 10)) ]})]> (store undated))
       undated).
Proof.
  apply (parse_response_bad_date_leaves_partial_update undated 2%positive
           {[ KStr "base" := VStr "USD"; KStr "rates" := VRef 1%positive ]}
           1%positive {[ KStr "EUR" := VNum (Q2Qc (9 # 10)) ]}
           (VStr "USD") (KStr "USD") (KeyError (KStr "date"))).
  - by_computation.
  - by_computation.
  - by_computation.
  - discriminate.
  - by_computation.
  - reflexivity.
  - left. split; [by_computation|reflexivity].
Defined.

(** ** The start date *)

(** X18. A [start_date] of the state file that is true is the start date
    [main] chooses, whatever the config holds, be it no object at all; the
    clock is not read. *)
Theorem state_start_date_takes_precedence w members v config σ :
  member "start_date" members = Some v →
  truthy v = true →
  main_start_date w (Some (JObj members)) config σ = (Ok v, σ).
Proof.
  intros Hm Hv. unfold main_start_date, lift, mbind, M_bind. simpl.
  by rewrite Hm; simpl; rewrite Hv.
Qed.

Lemma state_start_date_takes_precedence_witness :
  main_start_date steady (Some (JObj [("start_date", JStr "2024-01-02")]))
    (JObj [("start_date", JStr "2023-12-01"); ("access_key", JStr "k")]) start
  = (Ok (JStr "2024-01-02"), start).
Proof.
  apply (state_start_date_takes_precedence steady
           [("start_date", JStr "2024-01-02")] (JStr "2024-01-02")).
  - reflexivity.
  - reflexivity.
Defined.

(** X19. Without a state file, or when the state has no [start_date] or
    one that is false ([null], the empty string, 0), [main] takes the
    [start_date] of the config if that is true, and otherwise the current UTC
    date, printed with [DATE_FORMAT], for which it reads the clock once. *)
Theorem start_date_falls_back_to_config_then_today
    w state_file config_members σ :
  (state_file = None
   ∨ ∃ members, state_file = Some (JObj members)
                ∧ truthy (default JNull (member "start_date" members))
                  = false) →
  let c := default JNull (member "start_date" config_members) in
  let today := dt_date (utcnow w (clock_reads σ)) in
  main_start_date w state_file (JObj config_members) σ
  = if truthy c then (Ok c, σ)
    else (Ok (JStr (strftime today)), count_clock_read σ).
Proof.
  intros Hstate c today. unfold main_start_date, lift, mbind, M_bind.
  destruct Hstate as [->|(members & -> & Hs)]; simpl.
  - fold c. by destruct (truthy c).
  - rewrite Hs. fold c. by destruct (truthy c).
Qed.

Lemma start_date_falls_back_to_config_then_today_witness :
  main_start_date steady (Some (JObj [("start_date", JStr EmptyString)]))
    (JObj [("access_key", JStr "k")]) start
  = (Ok (JStr "2024-01-03"), count_clock_read start).
Proof.
  apply (start_date_falls_back_to_config_then_today steady
           (Some (JObj [("start_date", JStr EmptyString)]))
           [("access_key", JStr "k")] start).
  right. eexists. split; reflexivity.
Defined.

Lemma strptime_not_empty s d : strptime s = Some d → s ≠ EmptyString.
Proof. by intros H ->. Qed.

Lemma while_state w access_key fuel : ∀ l σ l' σ',
  (∃ s, state l = state_of s
        ∧ (s = next_date l ∨ is_Some (strptime s))) →
  while w fuel access_key l σ = Some (Ok l', σ') →
  ∃ s d, state l' = state_of s ∧ strptime s = Some d.
Proof.
  induction fuel as [|fuel IH]; intros l σ l' σ' Hinv H; [done|].
  simpl in H.
  destruct (loop_test_cases w l σ) as [[_ E]|(d & Hd & E)]; rewrite E in H;
    [done|].
  destruct (datetime_leb _ _).
  - destruct (iteration w access_key l _) as [[l1|e] σ2] eqn:Hi; [|done].
    eapply IH; [|done].
    apply iteration_ok_inv in Hi as (d0 & d' & Hd0 & Hd' & ->).
    exists (next_date l). split; [done|]. right. by exists d.
  - injection H as <- _. destruct Hinv as (s & Hs & [->|[d' Hd']]); eauto.
Qed.

(** X20. The state a run writes when it returns normally names a day
    that [DATE_FORMAT] parses, and a state file holding that state makes
    [main] choose this very day as start date, whatever the config holds. *)
Theorem written_state_resumes_the_run w fuel start_date access_key σ0 σ :
  do_sync w fuel start_date access_key σ0 = Some (Returned, σ) →
  ∃ s d,
    list.last (output σ) = Some (MsgState (state_of s))
    ∧ strptime s = Some d
    ∧ ∀ w' config σ',
        main_start_date w' (Some (JObj [("start_date", JStr s)])) config σ'
        = (Ok (JStr s), σ').
Proof.
  intros H. unfold do_sync in H.
  destruct (while w fuel access_key (initial_locals start_date) σ0)
    as [[[l|e] σ1]|] eqn:Hw; [| |done].
  - injection H as <-.
    destruct (while_state w access_key fuel (initial_locals start_date) σ0 l σ1)
      as (s & d & Hs & Hd); [|done|].
    { exists start_date. split; [done|by left]. }
    exists s, d. split; [|split; [done|]].
    + rewrite <- Hs. apply last_snoc.
    + intros w' config σ'. unfold main_start_date, lift, mbind, M_bind. simpl.
      rewrite bool_decide_eq_false_2 by (by eapply strptime_not_empty).
      done.
  - injection H as H _. by destruct (handler_not_returned e).
Qed.

Lemma written_state_resumes_the_run_witness :
  let σ := default start (snd <$> do_sync steady 4 "2024-01-01" "k" start) in
  ∃ s d,
    list.last (output σ) = Some (MsgState (state_of s))
    ∧ strptime s = Some d
    ∧ ∀ w' config σ',
        main_start_date w' (Some (JObj [("start_date", JStr s)])) config σ'
        = (Ok (JStr s), σ').
Proof.
  intros σ.
  apply (written_state_resumes_the_run steady 4 "2024-01-01" "k" start σ).
  by_computation.
Defined.
